(** * Mesh-to-mesh distance engine of CGAL's Polygon_mesh_processing

    A shallow embedding of [Polygon_mesh_processing/distance.h]: the point
    sampler (grid and Monte-Carlo branches), the approximate directed
    Hausdorff distance (sequential loop and the TBB reduction body), the
    bounded-error branch-and-bound engine and its naive validator.

    Numbers: the kernel's field type [FT] and the [double]s of the source
    are both embedded as exact rationals [Q]; comparisons are the source's
    comparisons, equalities are stated up to [Qeq].  Integer-valued
    [double] loop counters are embedded as [Z]. *)

From Stdlib Require Import QArith Qround Qminmax Qabs ZArith List Lia Lqa.
From Stdlib Require Import Morphisms Setoid.
Import ListNotations.

Local Open Scope Q_scope.

(** ** The geometric kernel *)

Module Kernel.

Record Point_3 : Type := mkPoint { x : Q; y : Q; z : Q }.

Record Triangle_3 : Type :=
  mkTriangle { vertex0 : Point_3; vertex1 : Point_3; vertex2 : Point_3 }.

(** [Kernel::Compute_squared_distance_3] on two points. *)
Definition squared_distance (p q : Point_3) : Q :=
  (x p - x q) * (x p - x q)
  + (y p - y q) * (y p - y q)
  + (z p - z q) * (z p - z q).

(** [CGAL::midpoint]. *)
Definition midpoint (p q : Point_3) : Point_3 :=
  mkPoint ((x p + x q) / 2) ((y p + y q) / 2) ((z p + z q) / 2).

(** [std::max(a, b)] is [(a < b) ? b : a]. *)
Definition std_max (a b : Q) : Q := if Qlt_le_dec a b then b else a.

(** [std::max] on integer-valued doubles. *)
Definition std_max_Z (a b : Z) : Z := if Z_lt_dec a b then b else a.

(** [Construct_vector_3(p, q)], the vector [q - p]; vectors are stored as
    their coordinate triple. *)
Definition vector (p q : Point_3) : Point_3 :=
  mkPoint (x q - x p) (y q - y p) (z q - z p).

(** [Construct_scaled_vector_3]. *)
Definition scaled_vector (v : Point_3) (c : Q) : Point_3 :=
  mkPoint (x v * c) (y v * c) (z v * c).

(** [Construct_translated_point_3]. *)
Definition translated_point (p v : Point_3) : Point_3 :=
  mkPoint (x p + x v) (y p + y v) (z p + z v).

Definition ORIGIN : Point_3 := mkPoint 0 0 0.

(** [Compute_squared_area_3]: a quarter of the squared norm of the cross
    product of two edge vectors. *)
Definition squared_area (p q r : Point_3) : Q :=
  let u := vector p q in
  let v := vector p r in
  let cx := y u * z v - z u * y v in
  let cy := z u * x v - x u * z v in
  let cz := x u * y v - y u * x v in
  (cx * cx + cy * cy + cz * cz) / 4.

(** Coordinate-wise equality of points up to [Qeq]. *)
Definition point_eq (p q : Point_3) : Prop :=
  x p == x q /\ y p == y q /\ z p == z q.

End Kernel.

Import Kernel.

(** ** Counted loops

    [for(double i = lo; i < hi; ++i) body] with integer-valued bounds:
    [hi - lo] iterations when [lo < hi], none otherwise. *)

Fixpoint for_steps {A : Type} (k : nat) (i : Z) (body : Z -> A -> A) (acc : A) : A :=
  match k with
  | O => acc
  | S k' => for_steps k' (i + 1)%Z body (body i acc)
  end.

Definition for_loop {A : Type} (lo hi : Z) (body : Z -> A -> A) (acc : A) : A :=
  for_steps (Z.to_nat (hi - lo)) lo body acc.

(** The integers [lo, lo+1, ..., lo+k-1]. *)
Fixpoint zrange_steps (k : nat) (lo : Z) : list Z :=
  match k with
  | O => []
  | S k' => lo :: zrange_steps k' (lo + 1)%Z
  end.

(** The integers [i] with [lo <= i < hi]. *)
Definition zrange (lo hi : Z) : list Z := zrange_steps (Z.to_nat (hi - lo)) lo.

(** ** Grid sampling of one triangle *)

Module GridSampling.
Section GridSampling.

(** [CGAL::approximate_sqrt] followed by [to_double]. *)
Variable approximate_sqrt : Q -> Q.

(** The point written to [out] in the body of the inner loop. *)
Definition grid_point (p0 p1 p2 : Point_3) (n i j : Z) : Point_3 :=
let c0 := 1 - (inject_Z i + inject_Z j) / inject_Z n in
let c1 := inject_Z i / inject_Z n in
let c2 := inject_Z j / inject_Z n in
mkPoint (x p0 * c0 + x p1 * c1 + x p2 * c2)
        (y p0 * c0 + y p1 * c1 + y p2 * c2)
        (z p0 * c0 + z p1 * c1 + z p2 * c2).

(** The number of grid rows [n] computed at the top of the function. *)
Definition grid_rows (p0 p1 p2 : Point_3) (distance : Q) : Z :=
let d_p0p1 := approximate_sqrt (squared_distance p0 p1) in
let d_p0p2 := approximate_sqrt (squared_distance p0 p2) in
std_max_Z (Qceiling (d_p0p1 / distance)) (Qceiling (d_p0p2 / distance)).

(** [triangle_grid_sampling]: the output iterator is the list of points
  written so far, [*out++ = p] appends. *)
Definition triangle_grid_sampling (p0 p1 p2 : Point_3) (distance : Q)
         (out : list Point_3) : list Point_3 :=
let n := grid_rows p0 p1 p2 distance in
for_loop 1 n
  (fun i out =>
     for_loop 1 (n - i)
       (fun j out => out ++ [grid_point p0 p1 p2 n i j]) out)
  out.

(** The specification's description: the lattice points with barycentric
  coordinates [(1-(i+j)/n, i/n, j/n)], [1 <= i], [1 <= j < n-i], row by
  row. *)
Definition interior_lattice (p0 p1 p2 : Point_3) (n : Z) : list Point_3 :=
flat_map (fun i => map (grid_point p0 p1 p2 n i) (zrange 1 (n - i)))
         (zrange 1 n).

(** [Σ_{i=1}^{n-1} (n-i-1)], the summands taken as loop trip counts. *)
Definition interior_count (n : Z) : nat :=
fold_right (fun i acc => (Z.to_nat (n - i - 1) + acc)%nat) O (zrange 1 n).

End GridSampling.
End GridSampling.

(** ** The point sampler *)

Module Sampler.

(** [std::numeric_limits<double>::max()]. *)
Definition DBL_MAX : Q := inject_Z (2 ^ 1024 - 2 ^ 971).

(** [static_cast<std::size_t>(d)]: truncation toward zero; [std::size_t]
    is embedded as [Z] and the value is taken to be in range (the cast is
    undefined otherwise). *)
Definition size_t_of_double (d : Q) : Z := Z.quot (Qnum d) (Zpos (Qden d)).

(** [std::ceil], an integer-valued [double]. *)
Definition ceil (d : Q) : Q := inject_Z (Qceiling d).

(** A floating-point quotient; [None] stands for a division by zero. *)
Definition checked_div (a b : Q) : option Q :=
  if Qeq_bool b 0 then None else Some (a / b).

(** Named parameters; [None] is a parameter that was not passed. *)
Record Named_parameters : Type := mkParameters {
  random_uniform_sampling : option bool;
  grid_sampling : option bool;
  monte_carlo_sampling : option bool;
  do_sample_vertices : option bool;
  do_sample_edges : option bool;
  do_sample_faces : option bool;
  nb_points_per_area_unit : option Q;
  nb_points_per_distance_unit : option Q;
  grid_spacing : option Q;
  number_of_points_per_face : option Z;
  number_of_points_per_edge : option Z;
  number_of_points_on_faces : option Z;
  number_of_points_on_edges : option Z
}.

Definition all_default : Named_parameters :=
  mkParameters None None None None None None None None None None None None None.

Definition choose_parameter {A : Type} (p : option A) (default : A) : A :=
  match p with Some v => v | None => default end.

Definition is_default_parameter {A : Type} (p : option A) : bool :=
  match p with Some _ => false | None => true end.

(** The mutable part of a sampler object: the output iterator (the points
    written so far) and the cached [min_sq_edge_length] member. *)
Record Sampler_state : Type := mkState {
  out : list Point_3;
  min_sq_edge_length : Q
}.

Definition write (s : Sampler_state) (pts : list Point_3) : Sampler_state :=
  mkState (out s ++ pts) (min_sq_edge_length s).

(** The state right after the constructor of either sampler. *)
Definition constructed (o : list Point_3) : Sampler_state := mkState o DBL_MAX.

(** A random point generator is the stream of its draws;
    [std::copy_n(g, n, out)] writes the first [n] of them. *)
Definition Generator : Type := nat -> Point_3.

Definition copy_n (g : Generator) (n : Z) (s : Sampler_state) : Sampler_state :=
  write s (map g (seq 0 (Z.to_nat n))).

(** Generators over a whole structure also report their total weight
    ([sum_of_weights()], [mesh_length()]). *)
Record Weighted_generator : Type := mkWeighted {
  draw : Generator;
  total_weight : Q
}.

(** The hooks [Triangle_structure_sampler_base] calls on its [Derived]
    class; [Tr] is what [get_range()] iterates over. *)
Record Derived (Tr : Type) : Type := mkDerived {
  sample_points : Sampler_state -> Sampler_state;
  get_minimum_edge_length : Sampler_state -> Q * Sampler_state;
  get_tr_area : Tr -> Q;
  get_tr_points : Tr -> Point_3 * Point_3 * Point_3;
  ms_edges_sample : Z -> Q -> Sampler_state -> option Sampler_state;
  ru_edges_sample : Q -> Q -> Sampler_state -> Sampler_state;
  internal_sample_triangles : Q -> bool -> bool -> Sampler_state -> Sampler_state;
  get_randomizer : Weighted_generator;
  get_range : list Tr;
  get_points_size : Z
}.

Arguments sample_points {Tr}.
Arguments get_minimum_edge_length {Tr}.
Arguments get_tr_area {Tr}.
Arguments get_tr_points {Tr}.
Arguments ms_edges_sample {Tr}.
Arguments ru_edges_sample {Tr}.
Arguments internal_sample_triangles {Tr}.
Arguments get_randomizer {Tr}.
Arguments get_range {Tr}.
Arguments get_points_size {Tr}.

(** One pass of the shortest-edge loop body:
    [if(sq_el > 0. && sq_el < min_sq_edge_length) min_sq_edge_length = sq_el;] *)
Definition min_edge_step (s : Sampler_state) (sq_el : Q) : Sampler_state :=
  if Qlt_le_dec 0 sq_el then
    if Qlt_le_dec sq_el (min_sq_edge_length s) then mkState (out s) sq_el else s
  else s.

Section Base.

Context {Tr : Type} (D : Derived Tr).

(** [Random_points_in_triangle_3]. *)
Variable Random_points_in_triangle_3 : Point_3 -> Point_3 -> Point_3 -> Generator.

(** The [if(use_gs)] block up to the call: the spacing handed to
    [internal_sample_triangles]. *)
Definition procede_grid_spacing (np : Named_parameters) (s : Sampler_state)
  : Q * Sampler_state :=
  let grid_spacing_ := choose_parameter (grid_spacing np) 0 in
  if Qeq_bool grid_spacing_ 0 then get_minimum_edge_length D s
  else (grid_spacing_, s).

(** The per-face number of points of the Monte-Carlo branch. *)
Definition ms_face_nb_points (nb_points_per_face : Z) (nb_pts_a_u : Q) (tr : Tr) : Z :=
  let nb_points := nb_points_per_face in
  if (nb_points =? 0)%Z then
    std_max_Z (size_t_of_double (ceil (get_tr_area D tr) * nb_pts_a_u)) 1
  else nb_points.

Definition ms_sample_face (nb_points_per_face : Z) (nb_pts_a_u : Q)
           (s : Sampler_state) (tr : Tr) : Sampler_state :=
  let nb_points := ms_face_nb_points nb_points_per_face nb_pts_a_u tr in
  let '(q0, q1, q2) := get_tr_points D tr in
  copy_n (Random_points_in_triangle_3 q0 q1 q2) nb_points s.

(** The default written to [nb_pts_a_u] in the Monte-Carlo branch. *)
Definition ms_default_nb_pts_a_u (nb_points_per_face : Z) (nb_pts_a_u : Q)
           (min_sq_edge_length : Q) : option Q :=
  if (nb_points_per_face =? 0)%Z && Qeq_bool nb_pts_a_u 0
  then checked_div 2 min_sq_edge_length
  else Some nb_pts_a_u.

(** The [if(use_ms)] block; it returns the state and the possibly
    updated local [nb_pts_a_u]. *)
Definition procede_monte_carlo (np : Named_parameters)
           (smpl_fcs smpl_dgs : bool) (nb_pts_a_u nb_pts_l_u : Q)
           (s : Sampler_state) : option (Sampler_state * Q) :=
  let nb_points_per_face := choose_parameter (number_of_points_per_face np) 0%Z in
  let nb_points_per_edge := choose_parameter (number_of_points_per_edge np) 0%Z in
  let '(min_sq_edge_length, s) :=
    if ((nb_points_per_face =? 0)%Z && Qeq_bool nb_pts_a_u 0)
       || ((nb_points_per_edge =? 0)%Z && Qeq_bool nb_pts_l_u 0)
    then get_minimum_edge_length D s
    else (DBL_MAX, s) in
  match
    (if smpl_fcs then
       match ms_default_nb_pts_a_u nb_points_per_face nb_pts_a_u min_sq_edge_length with
       | None => None
       | Some nb_pts_a_u =>
           Some (fold_left (ms_sample_face nb_points_per_face nb_pts_a_u)
                           (get_range D) s, nb_pts_a_u)
       end
     else Some (s, nb_pts_a_u))
  with
  | None => None
  | Some (s, nb_pts_a_u) =>
      if smpl_dgs then
        match ms_edges_sample D nb_points_per_edge nb_pts_l_u s with
        | None => None
        | Some s => Some (s, nb_pts_a_u)
        end
      else Some (s, nb_pts_a_u)
  end.

(** The [if(use_rs)] block. *)
Definition procede_random_uniform (np : Named_parameters)
           (smpl_fcs smpl_dgs : bool) (nb_pts_a_u nb_pts_l_u : Q)
           (s : Sampler_state) : Sampler_state :=
  let s :=
    if smpl_fcs then
      let nb_points := choose_parameter (number_of_points_on_faces np) 0%Z in
      let g := get_randomizer D in
      let nb_points :=
        if (nb_points =? 0)%Z then
          if Qeq_bool nb_pts_a_u 0 then get_points_size D
          else size_t_of_double (ceil (total_weight g * nb_pts_a_u))
        else nb_points in
      copy_n (draw g) nb_points s
    else s in
  if smpl_dgs then ru_edges_sample D nb_pts_l_u nb_pts_a_u s else s.

(** [Triangle_structure_sampler_base::procede]. *)
Definition procede (np : Named_parameters) (s : Sampler_state) : option Sampler_state :=
  let use_rs := choose_parameter (random_uniform_sampling np) true in
  let use_gs := choose_parameter (grid_sampling np) false in
  let use_ms := choose_parameter (monte_carlo_sampling np) false in
  let use_rs :=
    if (use_gs || use_ms) && is_default_parameter (random_uniform_sampling np)
    then false else use_rs in
  let smpl_vrtcs := choose_parameter (do_sample_vertices np) true in
  let smpl_dgs := choose_parameter (do_sample_edges np) true in
  let smpl_fcs := choose_parameter (do_sample_faces np) true in
  let nb_pts_a_u := choose_parameter (nb_points_per_area_unit np) 0 in
  let nb_pts_l_u := choose_parameter (nb_points_per_distance_unit np) 0 in
  let s := if smpl_vrtcs then sample_points D s else s in
  let s :=
    if use_gs then
      let '(grid_spacing_, s) := procede_grid_spacing np s in
      internal_sample_triangles D grid_spacing_ smpl_fcs smpl_dgs s
    else s in
  match
    (if use_ms then procede_monte_carlo np smpl_fcs smpl_dgs nb_pts_a_u nb_pts_l_u s
     else Some (s, nb_pts_a_u))
  with
  | None => None
  | Some (s, nb_pts_a_u) =>
      Some (if use_rs
            then procede_random_uniform np smpl_fcs smpl_dgs nb_pts_a_u nb_pts_l_u s
            else s)
  end.

End Base.

End Sampler.
(** ** The sampler over a triangle mesh *)

Module MeshSampler.

Import Sampler.

(** A face graph as far as the sampler reads it.  Vertex descriptors are
    numbers; an edge is listed by the source and target of its halfedge;
    a face [(t0, t1, t2)] by the targets of [halfedge(f)], of its [next]
    and of the [next] after that, so that [halfedge(f)] runs from [t2]
    to [t0]. *)
Record Triangle_mesh : Type := mkMesh {
  vertices : list nat;
  edges : list (nat * nat);
  faces : list (nat * nat * nat)
}.

Definition face_descriptor : Type := (nat * nat * nat)%type.
Definition halfedge_descriptor : Type := (nat * nat)%type.

Definition source (h : halfedge_descriptor) : nat := fst h.
Definition target (h : halfedge_descriptor) : nat := snd h.

(** The three halfedges around a face, starting at [halfedge(f)]. *)
Definition halfedges_around (f : face_descriptor) : list halfedge_descriptor :=
  let '(t0, t1, t2) := f in [(t2, t0); (t0, t1); (t1, t2)].

(** [edge(hd, tm)]: both halfedges of an edge give the same descriptor. *)
Definition edge (h : halfedge_descriptor) : nat * nat :=
  (Nat.min (source h) (target h), Nat.max (source h) (target h)).

Definition edge_eqb (e1 e2 : nat * nat) : bool :=
  Nat.eqb (fst e1) (fst e2) && Nat.eqb (snd e1) (snd e2).

Section Mesh.

Variable approximate_sqrt : Q -> Q.
(** [CGAL::sqrt] and [std::sqrt] on [double]. *)
Variable sqrt : Q -> Q.
(** [face_area] of [measure.h], on the three points of the face. *)
Variable face_area : Point_3 -> Point_3 -> Point_3 -> Q.
Variable Random_points_on_segment_3 : Point_3 -> Point_3 -> Generator.

Variable tm : Triangle_mesh.
Variable pmap : nat -> Point_3.

Variable Random_points_in_triangle_mesh_3 : Weighted_generator.
Variable Random_points_on_edge_list_graph_3 : Weighted_generator.

(** The running state of [sample_triangles]. *)
Record Sampling : Type := mkSampling {
  written : list Point_3;
  sampled_edges : list (nat * nat);
  endpoints : list nat
}.

(** The division points of one edge, endpoints skipped. *)
Definition sample_edge_points (distance : Q) (hd : halfedge_descriptor)
           (o : list Point_3) : list Point_3 :=
  let p0 := pmap (source hd) in
  let p1 := pmap (target hd) in
  let d_p0p1 := approximate_sqrt (squared_distance p0 p1) in
  let nb_pts := Qceiling (d_p0p1 / distance) in
  let step_vec := scaled_vector (vector p0 p1) (1 / inject_Z nb_pts) in
  for_loop 1 nb_pts
    (fun i o => o ++ [translated_point p0 (scaled_vector step_vec (inject_Z i))]) o.

(** The body of the loop over the three halfedges of a face. *)
Definition sample_halfedge (distance : Q) (sample_edges add_vertices : bool)
           (st : Sampling) (hd : halfedge_descriptor) : Sampling :=
  let st :=
    if sample_edges && negb (existsb (edge_eqb (edge hd)) (sampled_edges st))
    then mkSampling (sample_edge_points distance hd (written st))
                    (edge hd :: sampled_edges st) (endpoints st)
    else st in
  if add_vertices && negb (existsb (Nat.eqb (target hd)) (endpoints st))
  then mkSampling (written st ++ [pmap (target hd)])
                  (sampled_edges st) (target hd :: endpoints st)
  else st.

Definition sample_face (distance : Q) (sample_faces sample_edges add_vertices : bool)
           (st : Sampling) (fd : face_descriptor) : Sampling :=
  let st := fold_left (sample_halfedge distance sample_edges add_vertices)
                      (halfedges_around fd) st in
  if sample_faces then
    let '(t0, t1, t2) := fd in
    let p0 := pmap t2 in
    let p1 := pmap t0 in
    let p2 := pmap t1 in
    mkSampling
      (GridSampling.triangle_grid_sampling approximate_sqrt p0 p1 p2 distance (written st))
      (sampled_edges st) (endpoints st)
  else st.

(** [sample_triangles]. *)
Definition sample_triangles (triangles : list face_descriptor) (distance : Q)
           (o : list Point_3) (sample_faces sample_edges add_vertices : bool)
  : list Point_3 :=
  written (fold_left (sample_face distance sample_faces sample_edges add_vertices)
                     triangles (mkSampling o [] [])).

Definition sample_points (s : Sampler_state) : Sampler_state :=
  write s (map pmap (vertices tm)).

(** [Triangle_structure_sampler_for_triangle_mesh::get_minimum_edge_length]. *)
Definition get_minimum_edge_length (s : Sampler_state) : Q * Sampler_state :=
  if negb (Qeq_bool (min_sq_edge_length s) DBL_MAX) then (min_sq_edge_length s, s)
  else
    let s :=
      fold_left
        (fun s ed =>
           let sq_el := squared_distance (pmap (source ed)) (pmap (target ed)) in
           min_edge_step s sq_el)
        (edges tm) s in
    (min_sq_edge_length s, s).

Definition get_tr_points (tr : face_descriptor) : Point_3 * Point_3 * Point_3 :=
  let '(t0, t1, t2) := tr in (pmap t0, pmap t1, pmap t2).

Definition get_tr_area (tr : face_descriptor) : Q :=
  let '(q0, q1, q2) := get_tr_points tr in face_area q0 q1 q2.

(** The default written to [nb_pts_l_u] at the top of [ms_edges_sample]. *)
Definition ms_default_nb_pts_l_u (nb_points_per_edge : Z) (nb_pts_l_u : Q)
           (s : Sampler_state) : option Q :=
  if (nb_points_per_edge =? 0)%Z && Qeq_bool nb_pts_l_u 0
  then checked_div 1 (sqrt (min_sq_edge_length s))
  else Some nb_pts_l_u.

Definition ms_edge_nb_points (nb_points_per_edge : Z) (nb_pts_l_u : Q)
           (ed : nat * nat) : Z :=
  let nb_points := nb_points_per_edge in
  if (nb_points =? 0)%Z then
    std_max_Z
      (size_t_of_double
         (ceil (sqrt (squared_distance (pmap (source ed)) (pmap (target ed)))
                * nb_pts_l_u)))
      1
  else nb_points.

Definition ms_edges_sample (nb_points_per_edge : Z) (nb_pts_l_u : Q)
           (s : Sampler_state) : option Sampler_state :=
  match ms_default_nb_pts_l_u nb_points_per_edge nb_pts_l_u s with
  | None => None
  | Some nb_pts_l_u =>
      Some (fold_left
              (fun s ed =>
                 copy_n (Random_points_on_segment_3 (pmap (source ed)) (pmap (target ed)))
                        (ms_edge_nb_points nb_points_per_edge nb_pts_l_u ed) s)
              (edges tm) s)
  end.

Definition num_vertices : Z := Z.of_nat (length (vertices tm)).

Definition ru_edges_sample (np : Named_parameters) (nb_pts_l_u nb_pts_a_u : Q)
           (s : Sampler_state) : Sampler_state :=
  let nb_points := choose_parameter (number_of_points_on_edges np) 0%Z in
  let g := Random_points_on_edge_list_graph_3 in
  let nb_points :=
    if (nb_points =? 0)%Z then
      if Qeq_bool nb_pts_l_u 0 then num_vertices
      else size_t_of_double (ceil (total_weight g * nb_pts_a_u))
    else nb_points in
  copy_n (draw g) nb_points s.

Definition internal_sample_triangles (grid_spacing_ : Q) (smpl_fcs smpl_dgs : bool)
           (s : Sampler_state) : Sampler_state :=
  mkState (sample_triangles (faces tm) grid_spacing_ (out s) smpl_fcs smpl_dgs false)
          (min_sq_edge_length s).

(** [Triangle_structure_sampler_for_triangle_mesh] as the [Derived]
    class of the base sampler. *)
Definition sampler_for_triangle_mesh (np : Named_parameters) : Derived face_descriptor :=
  mkDerived face_descriptor
            sample_points
            get_minimum_edge_length
            get_tr_area
            get_tr_points
            ms_edges_sample
            (ru_edges_sample np)
            internal_sample_triangles
            Random_points_in_triangle_mesh_3
            (faces tm)
            num_vertices.

(** The squared edge lengths in the order the shortest-edge loop reads
    them. *)
Definition squared_edge_lengths : list Q :=
  map (fun ed => squared_distance (pmap (source ed)) (pmap (target ed))) (edges tm).

(** [sample_triangle_mesh(tm, out, np)]; [None] when a density default
    divided by zero. *)
Definition sample_triangle_mesh
           (Random_points_in_triangle_3 : Point_3 -> Point_3 -> Point_3 -> Generator)
           (o : list Point_3) (np : Named_parameters) : option (list Point_3) :=
  match procede (sampler_for_triangle_mesh np) Random_points_in_triangle_3 np
                (constructed o) with
  | None => None
  | Some performer => Some (out performer)
  end.

End Mesh.

End MeshSampler.

(** ** The sampler over a triangle soup *)

Module SoupSampler.

Import Sampler.

Definition TriangleType : Type := (nat * nat * nat)%type.

(** [tr[i]] for [i < 3]. *)
Definition at_index (tr : TriangleType) (i : nat) : nat :=
  let '(a, b, c) := tr in
  match i with O => a | 1%nat => b | _ => c end.

Section Soup.

Variable approximate_sqrt : Q -> Q.
Variable points : list Point_3.
Variable triangles : list TriangleType.

Variable Random_points_in_triangle_soup : Weighted_generator.

(** [points[i]]; an index past the end (undefined in the source) reads
    the origin. *)
Definition point_at (i : nat) : Point_3 := nth i points ORIGIN.

Definition sample_points (s : Sampler_state) : Sampler_state := write s points.

(** [Triangle_structure_sampler_for_triangle_soup::get_minimum_edge_length]. *)
Definition get_minimum_edge_length (s : Sampler_state) : Q * Sampler_state :=
  if negb (Qeq_bool (min_sq_edge_length s) DBL_MAX) then (min_sq_edge_length s, s)
  else
    let s :=
      fold_left
        (fun s tr =>
           for_loop 0 3
             (fun i s =>
                let a := point_at (at_index tr (Z.to_nat i)) in
                let b := point_at (at_index tr (Z.to_nat ((i + 1) mod 3))) in
                let sq_el := squared_distance a b in
                min_edge_step s sq_el)
             s)
        triangles s in
    (min_sq_edge_length s, s).

Definition get_tr_points (tr : TriangleType) : Point_3 * Point_3 * Point_3 :=
  (point_at (at_index tr 0), point_at (at_index tr 1), point_at (at_index tr 2)).

Definition get_tr_area (tr : TriangleType) : Q :=
  approximate_sqrt
    (squared_area (point_at (at_index tr 0)) (point_at (at_index tr 1))
                            (point_at (at_index tr 2))).

(** Edges of a soup are not sampled. *)
Definition ms_edges_sample (_ : Z) (_ : Q) (s : Sampler_state) : option Sampler_state :=
  Some s.

Definition ru_edges_sample (_ _ : Q) (s : Sampler_state) : Sampler_state := s.

Definition internal_sample_triangles (distance : Q) (_ _ : bool)
           (s : Sampler_state) : Sampler_state :=
  fold_left
    (fun s tr =>
       let '(p0, p1, p2) := get_tr_points tr in
       mkState (GridSampling.triangle_grid_sampling approximate_sqrt p0 p1 p2 distance (out s))
               (min_sq_edge_length s))
    triangles s.

Definition sampler_for_triangle_soup : Derived TriangleType :=
  mkDerived TriangleType
            sample_points
            get_minimum_edge_length
            get_tr_area
            get_tr_points
            ms_edges_sample
            ru_edges_sample
            internal_sample_triangles
            Random_points_in_triangle_soup
            triangles
            (Z.of_nat (length points)).

(** The squared edge lengths in the order the shortest-edge loop reads
    them: three per triangle. *)
Definition squared_edge_lengths : list Q :=
  flat_map
    (fun tr =>
       [squared_distance (point_at (at_index tr 0)) (point_at (at_index tr 1));
        squared_distance (point_at (at_index tr 1)) (point_at (at_index tr 2));
        squared_distance (point_at (at_index tr 2)) (point_at (at_index tr 0))])
    triangles.

(** [sample_triangle_soup(points, triangles, out, np)]. *)
Definition sample_triangle_soup
           (Random_points_in_triangle_3 : Point_3 -> Point_3 -> Point_3 -> Generator)
           (o : list Point_3) (np : Named_parameters) : option (list Point_3) :=
  match procede sampler_for_triangle_soup Random_points_in_triangle_3 np
                (constructed o) with
  | None => None
  | Some performer => Some (out performer)
  end.

End Soup.

End SoupSampler.
(** ** Approximate directed Hausdorff distance *)

Module ApproxHausdorff.

(** Modelled from the spec: the spatial triangle index ([AABB_tree] is not
    among the sources).  [closest_point(query, hint)] "returns the closest
    surface point to [query], using [hint] as a warm-start to prune the
    search; deterministic, no side effects". *)
Record AABB_tree : Type := mkTree {
  on_surface : Point_3 -> Prop;
  closest_point : Point_3 -> Point_3 -> Point_3;
  closest_point_on_surface :
    forall query hint, on_surface (closest_point query hint);
  closest_point_nearest :
    forall query hint p,
      on_surface p ->
      squared_distance (closest_point query hint) query <= squared_distance p query
}.

Inductive Concurrency_tag : Type := Sequential_tag | Parallel_tag.

(** [sample_points.begin() + b] up to [sample_points.begin() + e]. *)
Definition subrange {A : Type} (l : list A) (b e : nat) : list A :=
  firstn (e - b) (skipn b l).

(** How [tbb::parallel_reduce] carried a range out: a body is applied to
    a subrange, or to two parts one after the other, or the right part is
    given to a body made by the splitting constructor and joined back. *)
Inductive Schedule : Type :=
| Run (b e : nat)
| Then (s1 s2 : Schedule)
| Fork (s1 s2 : Schedule).

(** The schedule splits [b, e) into non-empty consecutive subranges. *)
Fixpoint covers (sch : Schedule) (b e : nat) : Prop :=
  match sch with
  | Run b' e' => b' = b /\ e' = e /\ (b < e)%nat
  | Then s1 s2 | Fork s1 s2 => exists m, covers s1 b m /\ covers s2 m e
  end.

Section Impl.

Variable approximate_sqrt : Q -> Q.
Variable tree : AABB_tree.

(** The variables of the sequential loop, and the calls made to
    [closest_point] so far as (query, hint) pairs. *)
Record Loop_state : Type := mkLoop {
  hint : Point_3;
  hdist : Q;
  queries : list (Point_3 * Point_3)
}.

(** [hint = tree.closest_point(pt, hint); d = ...; if(d > hdist) hdist = d;] *)
Definition query_step (st : Loop_state) (pt : Point_3) : Loop_state :=
  let hint' := closest_point tree pt (hint st) in
  let dist := squared_distance hint' pt in
  let d := approximate_sqrt dist in
  mkLoop hint'
         (if Qlt_le_dec (hdist st) d then d else hdist st)
         (queries st ++ [(pt, hint st)]).

(** The [for] loop over a range of points, from [hdist = 0]. *)
Definition query_loop (pts : list Point_3) (hint : Point_3) : Loop_state :=
  fold_left query_step pts (mkLoop hint 0 []).

(** [Distance_computation]: the reduction body; [tree] and
    [sample_points] are references shared by all bodies. *)
Record Distance_computation : Type := mkBody {
  initial_hint : Point_3;
  distance : Q
}.

Definition body (p : Point_3) : Distance_computation := mkBody p (-1).

(** The splitting constructor. *)
Definition split (s : Distance_computation) : Distance_computation :=
  mkBody (initial_hint s) (-1).

(** [operator()] on the blocked range [b, e). *)
Definition apply_range (sample_points : list Point_3) (f : Distance_computation)
           (b e : nat) : Distance_computation :=
  let hdist := hdist (query_loop (subrange sample_points b e) (initial_hint f)) in
  mkBody (initial_hint f)
         (if Qlt_le_dec (distance f) hdist then hdist else distance f).

Definition join (f rhs : Distance_computation) : Distance_computation :=
  mkBody (initial_hint f) (std_max (distance rhs) (distance f)).

Fixpoint reduce (sample_points : list Point_3) (sch : Schedule)
         (f : Distance_computation) : Distance_computation :=
  match sch with
  | Run b e => apply_range sample_points f b e
  | Then s1 s2 => reduce sample_points s2 (reduce sample_points s1 f)
  | Fork s1 s2 =>
      let rhs := reduce sample_points s2 (split f) in
      join (reduce sample_points s1 f) rhs
  end.

(** [tbb::parallel_reduce(blocked_range(0, size), f)]: nothing runs on
    an empty range. *)
Definition parallel_reduce (sample_points : list Point_3) (sch : Schedule)
           (f : Distance_computation) : Distance_computation :=
  match sample_points with
  | [] => f
  | _ => reduce sample_points sch f
  end.

(** [approximate_Hausdorff_distance_impl]. *)
Definition approximate_Hausdorff_distance_impl (tag : Concurrency_tag)
           (sch : Schedule) (sample_points : list Point_3) (hint : Point_3) : Q :=
  match tag with
  | Parallel_tag => distance (parallel_reduce sample_points sch (body hint))
  | Sequential_tag => hdist (query_loop sample_points hint)
  end.

(** The distance of a point to the surface as the loop computes it. *)
Definition distance_to_surface (pt : Point_3) : Q :=
  approximate_sqrt (squared_distance (closest_point tree pt pt) pt).

(** The running maximum over a range. *)
Definition max_over (pts : list Point_3) (a : Q) : Q :=
  fold_left (fun a pt => Qmax a (distance_to_surface pt)) pts a.

End Impl.

Section Distance.

Variable approximate_sqrt : Q -> Q.
(** [spatial_sort] of [CGAL/spatial_sort.h]. *)
Variable spatial_sort : list Point_3 -> list Point_3.
(** Construction and [build()] of the tree over the faces of a mesh. *)
Variable build : MeshSampler.Triangle_mesh -> (nat -> Point_3) -> AABB_tree.

(** [approximate_Hausdorff_distance(original_sample_points, tm, vpm)]
    up to the call of the implementation: the range, the tree and the
    hint it passes on. *)
Definition approximate_Hausdorff_distance_call
           (original_sample_points : list Point_3)
           (tm : MeshSampler.Triangle_mesh) (vpm : nat -> Point_3)
  : list Point_3 * AABB_tree * Point_3 :=
  let sample_points := original_sample_points in
  let sample_points := spatial_sort sample_points in
  let tree := build tm vpm in
  let hint := vpm (List.hd O (MeshSampler.vertices tm)) in
  (original_sample_points, tree, hint).

Definition approximate_Hausdorff_distance (tag : Concurrency_tag) (sch : Schedule)
           (original_sample_points : list Point_3)
           (tm : MeshSampler.Triangle_mesh) (vpm : nat -> Point_3) : Q :=
  let '(range, tree, hint) :=
    approximate_Hausdorff_distance_call original_sample_points tm vpm in
  approximate_Hausdorff_distance_impl approximate_sqrt tree tag sch range hint.

(** The closest-point queries of a sequential run, in the order they are
    made. *)
Definition approximate_Hausdorff_distance_queries
           (original_sample_points : list Point_3)
           (tm : MeshSampler.Triangle_mesh) (vpm : nat -> Point_3)
  : list (Point_3 * Point_3) :=
  let '(range, tree, hint) :=
    approximate_Hausdorff_distance_call original_sample_points tm vpm in
  queries (query_loop approximate_sqrt tree range hint).

(** What the specification describes: the queries of the loop run over
    the spatially sorted points. *)
Definition sorted_queries (original_sample_points : list Point_3)
           (tm : MeshSampler.Triangle_mesh) (vpm : nat -> Point_3)
  : list (Point_3 * Point_3) :=
  queries (query_loop approximate_sqrt (build tm vpm)
                      (spatial_sort original_sample_points)
                      (vpm (List.hd O (MeshSampler.vertices tm)))).

End Distance.

End ApproxHausdorff.
(** ** The bounded-error Hausdorff engine *)

Module BoundedError.

(** [std::pair<double, double>]: lower and upper bound. *)
Definition Hausdorff_bounds : Type := (Q * Q)%type.

(** Modelled from the spec: [Candidate_triangle] (declared in the header
    of the traversal traits, which is not among the sources), "a concrete
    triangle paired with a Hausdorff bound = (lower, upper)". *)
Record Candidate_triangle : Type := mkCandidate {
  m_triangle : Triangle_3;
  m_bounds : Hausdorff_bounds
}.

(** Modelled from the spec: the priority queue, a "max-heap of candidate
    triangles ordered by upper bound"; the order among candidates of equal
    upper bound is left open there, the earliest one is taken here. *)
Definition Heap_type : Type := list Candidate_triangle.

Definition push (c : Candidate_triangle) (h : Heap_type) : Heap_type := c :: h.

(** The candidate of largest upper bound among [c :: h], and the others. *)
Fixpoint extract_top (c : Candidate_triangle) (h : list Candidate_triangle)
  : Candidate_triangle * list Candidate_triangle :=
  match h with
  | [] => (c, [])
  | c' :: h' =>
      let '(m, rest) := extract_top c' h' in
      if Qlt_le_dec (snd (m_bounds c)) (snd (m_bounds m))
      then (m, c :: rest)
      else (c, h)
  end.

(** [top()] and [pop()]; [None] on an empty heap. *)
Definition top (h : Heap_type) : option Candidate_triangle :=
  match h with
  | [] => None
  | c :: h' => Some (fst (extract_top c h'))
  end.

Definition pop (h : Heap_type) : Heap_type :=
  match h with
  | [] => []
  | c :: h' => snd (extract_top c h')
  end.

(** The four triangles of the midpoint subdivision, in the order of the
    source. *)
Definition sub_triangles (v0 v1 v2 : Point_3) : list Triangle_3 :=
  let v01 := midpoint v0 v1 in
  let v02 := midpoint v0 v2 in
  let v12 := midpoint v1 v2 in
  [mkTriangle v0 v01 v02; mkTriangle v1 v01 v12;
   mkTriangle v2 v02 v12; mkTriangle v01 v02 v12].

(** The variables the main loop works on. *)
Record Search : Type := mkSearch {
  candidate_triangles : Heap_type;
  global_bounds : Hausdorff_bounds
}.

Section Engine.

(** The bounds [get_local_bounds()] reports after the traversal of the
    second tree with [Hausdorff_primitive_traits_tm2], as a function of
    the sub-triangle and of the bounds of its parent the traits are
    initialised with. *)
Variable local_bounds : Triangle_3 -> Hausdorff_bounds -> Hausdorff_bounds.

(** The primitive of [tm2_tree.closest_point_and_primitive(v)]. *)
Variable closest_primitive : Point_3 -> nat.

Variable error_bound : Q.

Definition squared_error_bound : Q := error_bound * error_bound.

Definition Qgtb (a b : Q) : bool := if Qlt_le_dec b a then true else false.
Definition Qltb (a b : Q) : bool := if Qlt_le_dec a b then true else false.

(** The condition of the [while]. *)
Definition loop_condition (st : Search) : bool :=
  Qgtb (snd (global_bounds st) - fst (global_bounds st)) error_bound
  && negb (match candidate_triangles st with [] => true | _ => false end).

(** The body of the [for] over the four sub-triangles. *)
Definition process_sub_triangle (triangle_bounds : Hausdorff_bounds)
           (st : Search) (sub : Triangle_3) : Search :=
  let local := local_bounds sub triangle_bounds in
  let lower :=
    if Qgtb (fst local) (fst (global_bounds st)) then fst local
    else fst (global_bounds st) in
  mkSearch (push (mkCandidate sub local) (candidate_triangles st))
           (lower, snd (global_bounds st)).

(** The body of the [while], run on a non-empty heap. *)
Definition iteration (st : Search) : Search :=
  match top (candidate_triangles st) with
  | None => st
  | Some triangle_and_bound =>
      let candidates := pop (candidate_triangles st) in
      let global := global_bounds st in
      let triangle_bounds := m_bounds triangle_and_bound in
      if Qgtb (snd triangle_bounds) (fst global)
         && Qgtb (snd triangle_bounds - fst triangle_bounds) error_bound
      then
        let triangle_for_subdivision := m_triangle triangle_and_bound in
        let v0 := vertex0 triangle_for_subdivision in
        let v1 := vertex1 triangle_for_subdivision in
        let v2 := vertex2 triangle_for_subdivision in
        if Nat.eqb (closest_primitive v0) (closest_primitive v1)
           && Nat.eqb (closest_primitive v1) (closest_primitive v2)
        then mkSearch candidates (snd triangle_bounds, snd global)
        else if Qltb (squared_distance v0 v1) squared_error_bound
                && Qltb (squared_distance v0 v2) squared_error_bound
                && Qltb (squared_distance v1 v2) squared_error_bound
        then mkSearch candidates (snd triangle_bounds, snd global)
        else
          let st' := fold_left (process_sub_triangle triangle_bounds)
                               (sub_triangles v0 v1 v2)
                               (mkSearch candidates global) in
          match top (candidate_triangles st') with
          | None => st'
          | Some t =>
              let current_max := snd (m_bounds t) in
              mkSearch (candidate_triangles st')
                       (fst (global_bounds st'),
                        std_max current_max (fst (global_bounds st')))
          end
      else mkSearch candidates global
  end.

(** The [while] loop; [None] when [fuel] iterations did not reach its
    exit. *)
Fixpoint main_loop (fuel : nat) (st : Search) : option Search :=
  if loop_condition st then
    match fuel with
    | O => None
    | S fuel' => main_loop fuel' (iteration st)
    end
  else Some st.

(** The value returned after the loop. *)
Definition estimate (st : Search) : Q :=
  (fst (global_bounds st) + snd (global_bounds st)) / 2.

(** [bounded_error_Hausdorff_impl] from the candidates and the global
    bounds collected by the traversal of the first tree. *)
Definition bounded_error_Hausdorff_impl (fuel : nat) (seeded : Search) : option Q :=
  match main_loop fuel seeded with
  | None => None
  | Some st => Some (estimate st)
  end.

(** The states the loop goes through from a seeded state. *)
Inductive reached (seeded : Search) : Search -> Prop :=
| reached_seed : reached seeded seeded
| reached_iteration (st : Search) :
    reached seeded st -> loop_condition st = true -> reached seeded (iteration st).

(** Every candidate is below the global upper bound, which is above the
    global lower bound. *)
Definition bracketed (st : Search) : Prop :=
  Forall (fun c => snd (m_bounds c) <= snd (global_bounds st)) (candidate_triangles st)
  /\ fst (global_bounds st) <= snd (global_bounds st).

End Engine.

(** *** The naive validator *)

Section Naive.

(** [tm2_tree.closest_point(v)]. *)
Variable closest_point : Point_3 -> Point_3.
Variable approximate_sqrt : Q -> Q.

Definition max_squared_edge_length (v0 v1 v2 : Point_3) : Q :=
  std_max (std_max (squared_distance v0 v1) (squared_distance v0 v2))
          (squared_distance v1 v2).

(** [recursive_hausdorff_subdivision]; [fuel] bounds the depth of the
    recursion, [None] when it does not suffice. *)
Fixpoint recursive_hausdorff_subdivision (fuel : nat) (v0 v1 v2 : Point_3)
         (squared_error_bound : Q) : option Q :=
  match fuel with
  | O => None
  | S fuel' =>
      if Qlt_le_dec (max_squared_edge_length v0 v1 v2) squared_error_bound then
        Some (std_max
                (std_max (squared_distance v0 (closest_point v0))
                         (squared_distance v1 (closest_point v1)))
                (squared_distance v2 (closest_point v2)))
      else
        let v01 := midpoint v0 v1 in
        let v02 := midpoint v0 v2 in
        let v12 := midpoint v1 v2 in
        match recursive_hausdorff_subdivision fuel' v0 v01 v02 squared_error_bound,
              recursive_hausdorff_subdivision fuel' v1 v01 v12 squared_error_bound,
              recursive_hausdorff_subdivision fuel' v2 v02 v12 squared_error_bound,
              recursive_hausdorff_subdivision fuel' v01 v02 v12 squared_error_bound
        with
        | Some a, Some b, Some c, Some d => Some (std_max (std_max a b) (std_max c d))
        | _, _, _, _ => None
        end
  end.

(** [bounded_error_Hausdorff_naive_impl] over the triangles of the first
    mesh. *)
Definition bounded_error_Hausdorff_naive_impl (fuel : nat) (tm1 : list Triangle_3)
           (error_bound : Q) : option Q :=
  let squared_error_bound := error_bound * error_bound in
  match
    fold_left
      (fun acc triangle =>
         match acc with
         | None => None
         | Some squared_lower_bound =>
             match recursive_hausdorff_subdivision
                     fuel (vertex0 triangle) (vertex1 triangle) (vertex2 triangle)
                     squared_error_bound with
             | None => None
             | Some triangle_bound =>
                 Some (if Qlt_le_dec squared_lower_bound triangle_bound
                       then triangle_bound else squared_lower_bound)
             end
         end)
      tm1 (Some 0)
  with
  | None => None
  | Some squared_lower_bound => Some (approximate_sqrt squared_lower_bound)
  end.

(** All three squared edge lengths are below [bound * 4^n]: after [n]
    subdivisions they are below [bound]. *)
Definition within (bound : Q) (n : nat) (v0 v1 v2 : Point_3) : Prop :=
  squared_distance v0 v1 < bound * inject_Z (4 ^ Z.of_nat n)
  /\ squared_distance v0 v2 < bound * inject_Z (4 ^ Z.of_nat n)
  /\ squared_distance v1 v2 < bound * inject_Z (4 ^ Z.of_nat n).

End Naive.

(** The number of triangles visited when a triangle is subdivided [n]
    levels deep everywhere. *)
Fixpoint full_subdivision (n : nat) : nat :=
  match n with
  | O => 1
  | S n' => S (4 * full_subdivision n')
  end.

(** A bound on the iterations a heap still needs: every candidate with
    the size of a full subdivision down to the edge test. *)
Inductive budget (bound : Q) : list Candidate_triangle -> nat -> Prop :=
| budget_nil : budget bound [] O
| budget_cons (c : Candidate_triangle) (h : list Candidate_triangle) (n k : nat) :
    within bound n (vertex0 (m_triangle c)) (vertex1 (m_triangle c))
           (vertex2 (m_triangle c)) ->
    budget bound h k ->
    budget bound (c :: h) (full_subdivision n + k).

End BoundedError.
(** ** The documented entry points of the approximate distance *)

Module DistanceCalls.

Import Sampler ApproxHausdorff.

(** The named parameters of one mesh: what the sampler reads, and the
    vertex point map ([vertex_point_map], or the internal one). *)
Record Mesh_parameters : Type := mkMeshParameters {
  sampling : Named_parameters;
  vertex_point : nat -> Point_3
}.

Section Calls.

Variables approximate_sqrt sqrt : Q -> Q.
Variable face_area : Point_3 -> Point_3 -> Point_3 -> Q.
Variable Random_points_on_segment_3 : Point_3 -> Point_3 -> Generator.
Variable Random_points_in_triangle_3 : Point_3 -> Point_3 -> Point_3 -> Generator.
(** The generators over a whole mesh, built from the mesh and its point
    map. *)
Variable Random_points_in_triangle_mesh_3 :
  MeshSampler.Triangle_mesh -> (nat -> Point_3) -> Weighted_generator.
Variable Random_points_on_edge_list_graph_3 :
  MeshSampler.Triangle_mesh -> (nat -> Point_3) -> Weighted_generator.
Variable spatial_sort : list Point_3 -> list Point_3.
Variable build : MeshSampler.Triangle_mesh -> (nat -> Point_3) -> AABB_tree.

Variable tag : Concurrency_tag.

(** [approximate_Hausdorff_distance(tm1, tm2, np, vpm_2)]: sample [tm1],
    then measure the samples against [tm2]; [None] when the sampler
    divided by zero. *)
Definition approximate_Hausdorff_distance_sampled (sch : Schedule)
           (tm1 tm2 : MeshSampler.Triangle_mesh) (np : Mesh_parameters)
           (vpm_2 : nat -> Point_3) : option Q :=
  match MeshSampler.sample_triangle_mesh
          approximate_sqrt sqrt face_area Random_points_on_segment_3
          tm1 (vertex_point np)
          (Random_points_in_triangle_mesh_3 tm1 (vertex_point np))
          (Random_points_on_edge_list_graph_3 tm1 (vertex_point np))
          Random_points_in_triangle_3 [] (sampling np) with
  | None => None
  | Some sample_points =>
      Some (approximate_Hausdorff_distance approximate_sqrt spatial_sort build
                                           tag sch sample_points tm2 vpm_2)
  end.

(** [approximate_Hausdorff_distance(tm1, tm2, np1, np2)]. *)
Definition approximate_Hausdorff_distance_meshes (sch : Schedule)
           (tm1 tm2 : MeshSampler.Triangle_mesh) (np1 np2 : Mesh_parameters)
  : option Q :=
  approximate_Hausdorff_distance_sampled sch tm1 tm2 np1 (vertex_point np2).

(** [approximate_symmetric_Hausdorff_distance]; each of the two directed
    runs has its own reduction. *)
Definition approximate_symmetric_Hausdorff_distance (sch12 sch21 : Schedule)
           (tm1 tm2 : MeshSampler.Triangle_mesh) (np1 np2 : Mesh_parameters)
  : option Q :=
  match approximate_Hausdorff_distance_meshes sch12 tm1 tm2 np1 np2,
        approximate_Hausdorff_distance_meshes sch21 tm2 tm1 np2 np1 with
  | Some d12, Some d21 => Some (std_max d12 d21)
  | _, _ => None
  end.

(** [max_distance_to_triangle_mesh]. *)
Definition max_distance_to_triangle_mesh (sch : Schedule) (points : list Point_3)
           (tm : MeshSampler.Triangle_mesh) (np : Mesh_parameters) : Q :=
  approximate_Hausdorff_distance approximate_sqrt spatial_sort build
                                 tag sch points tm (vertex_point np).

End Calls.

End DistanceCalls.
(** ** Concrete inputs

    A computable square root, two small meshes and a soup, on which the
    statements below are evaluated. *)

Module Examples.

Import Sampler.

(** A square root rounded up on the reduced fraction: exact on squares of
    rationals, positive on positive numbers. *)
Definition sqrt_up (q : Q) : Q :=
  let r := Qred q in
  Qmake (Z.sqrt_up (Qnum r * Zpos (Qden r))) (Qden r).

Definition area_up (p q r : Point_3) : Q := sqrt_up (squared_area p q r).

(** Draws that do not depend on their index. *)
Definition centroid_generator (p q r : Point_3) : Generator :=
  fun _ => mkPoint ((x p + x q + x r) / 3) ((y p + y q + y r) / 3) ((z p + z q + z r) / 3).

Definition midpoint_generator (p q : Point_3) : Generator := fun _ => midpoint p q.

Definition origin_generator : Weighted_generator := mkWeighted (fun _ => ORIGIN) 1.

(** The right triangle with legs of length [len] in the plane [z = 0];
    vertex [3] repeats vertex [0]. *)
Definition corner (len : Q) (v : nat) : Point_3 :=
  match v with
  | 1%nat => mkPoint len 0 0
  | 2%nat => mkPoint 0 len 0
  | _ => ORIGIN
  end.

Definition one_triangle : MeshSampler.Triangle_mesh :=
  MeshSampler.mkMesh [0; 1; 2]%nat [(0, 1); (1, 2); (2, 0)]%nat [(0, 1, 2)]%nat.

(** A triangle together with a face collapsed onto one of its edges:
    the edge between vertices [0] and [3] has length zero. *)
Definition with_degenerate_edge : MeshSampler.Triangle_mesh :=
  MeshSampler.mkMesh [0; 1; 2; 3]%nat
                     [(0, 1); (1, 2); (2, 0); (0, 3); (3, 1)]%nat
                     [(0, 1, 2); (0, 3, 1)]%nat.

Definition soup_points (len : Q) : list Point_3 :=
  [corner len 0; corner len 1; corner len 2; corner len 3].

Definition soup_triangles : list SoupSampler.TriangleType :=
  [(0, 1, 2); (0, 3, 1)]%nat.

Definition sample_mesh (tm : MeshSampler.Triangle_mesh) (len : Q)
           (np : Named_parameters) : option (list Point_3) :=
  MeshSampler.sample_triangle_mesh sqrt_up sqrt_up area_up midpoint_generator
    tm (corner len) origin_generator origin_generator centroid_generator [] np.

(** Grid sampling requested, nothing else passed. *)
Definition np_grid : Named_parameters :=
  mkParameters None (Some true) None None None None None None None None None None None.

(** Grid sampling with an explicit spacing. *)
Definition np_grid_spacing (g : Q) : Named_parameters :=
  mkParameters None (Some true) None None None None None None (Some g) None None None None.

(** Monte-Carlo sampling of the faces only, with a density per area
    unit. *)
Definition np_monte_carlo_faces (density : Q) : Named_parameters :=
  mkParameters None None (Some true) (Some false) (Some false) (Some true)
               (Some density) None None None None None None.

(** The plane [z = 0] as the surface of a tree: the closest point drops
    the height of the query, whatever the hint. *)
Definition plane_tree : ApproxHausdorff.AABB_tree.
Proof.
  refine (ApproxHausdorff.mkTree
            (fun p => z p == 0)
            (fun query _ => mkPoint (x query) (y query) 0) _ _).
  - intros query hint. reflexivity.
  - intros query hint p Hp. unfold squared_distance. cbn [x y z].
    rewrite Hp.
    assert (Hsq : forall a : Q, 0 <= a * a) by (intros a; nra).
    pose proof (Hsq (x p - x query)). pose proof (Hsq (y p - y query)). lra.
Defined.

(** Insertion sort on the first coordinate, in the place of the spatial
    sort. *)
Fixpoint insert_by_x (p : Point_3) (l : list Point_3) : list Point_3 :=
  match l with
  | [] => [p]
  | q :: l' => if Qle_bool (x p) (x q) then p :: l else q :: insert_by_x p l'
  end.

Definition sort_by_x (l : list Point_3) : list Point_3 := fold_right insert_by_x [] l.

(** Three sample points above the plane, not in sorted order. *)
Definition three_samples : list Point_3 :=
  [mkPoint 3 0 1; mkPoint 1 0 3; mkPoint 2 0 2].

(** A reduction that forks once and lets the second body run twice. *)
Definition forked : ApproxHausdorff.Schedule :=
  ApproxHausdorff.Fork (ApproxHausdorff.Run 0 1)
                       (ApproxHausdorff.Then (ApproxHausdorff.Run 1 2)
                                             (ApproxHausdorff.Run 2 3)).

(** Bounds of a triangle against the plane [z = 0] from the heights of
    its vertices, capped by the upper bound of the parent. *)
Definition height (p : Point_3) : Q := Qabs (z p).

Definition plane_bounds (sub : Triangle_3) (parent : BoundedError.Hausdorff_bounds)
  : BoundedError.Hausdorff_bounds :=
  let h0 := height (vertex0 sub) in
  let h1 := height (vertex1 sub) in
  let h2 := height (vertex2 sub) in
  let upper := Qmin (Qmax (Qmax h0 h1) h2) (snd parent) in
  (Qmin (Qmin (Qmin h0 h1) h2) upper, upper).

(** The plane cut into two primitives along [x = 1/2]. *)
Definition half_plane (p : Point_3) : nat :=
  if Qlt_le_dec (x p) (1 # 2) then 0%nat else 1%nat.

Definition slanted : Triangle_3 :=
  mkTriangle (mkPoint 0 0 1) (mkPoint 4 0 1) (mkPoint 0 4 3).

(** One candidate with its bounds, as the traversal of the first tree
    leaves it. *)
Definition slanted_seed : BoundedError.Search :=
  BoundedError.mkSearch [BoundedError.mkCandidate slanted (1, 3)] (1, 3).

Definition closest_on_plane (p : Point_3) : Point_3 := mkPoint (x p) (y p) 0.

End Examples.
(** * Properties *)

(** ** Loops and ranges *)

Lemma for_steps_append {A : Type} (f : Z -> A) (k : nat) :
  forall (i : Z) (out : list A),
    for_steps k i (fun j o => o ++ [f j]) out = out ++ map f (zrange_steps k i).
Proof.
  induction k as [|k IH]; intros i out; simpl.
  - now rewrite app_nil_r.
  - rewrite IH, <- app_assoc. reflexivity.
Qed.

Lemma for_steps_flat {A : Type} (g : Z -> list A) (k : nat) :
  forall (i : Z) (out : list A),
    for_steps k i (fun j o => o ++ g j) out = out ++ flat_map g (zrange_steps k i).
Proof.
  induction k as [|k IH]; intros i out; simpl.
  - now rewrite app_nil_r.
  - rewrite IH, <- app_assoc. reflexivity.
Qed.

Lemma for_steps_ext {A : Type} (f g : Z -> A -> A) (k : nat) :
  (forall i a, f i a = g i a) ->
  forall i acc, for_steps k i f acc = for_steps k i g acc.
Proof.
  intros E. induction k as [|k IH]; intros i acc; simpl; [reflexivity|].
  rewrite E. apply IH.
Qed.

Lemma zrange_steps_length (k : nat) : forall lo, length (zrange_steps k lo) = k.
Proof. induction k; intros lo; simpl; [reflexivity | now rewrite IHk]. Qed.

Lemma zrange_steps_In (k : nat) :
  forall lo i, In i (zrange_steps k lo) <-> (lo <= i < lo + Z.of_nat k)%Z.
Proof.
  induction k as [|k IH]; intros lo i; simpl.
  - split; [tauto | lia].
  - rewrite IH. lia.
Qed.

Lemma zrange_In (lo hi i : Z) : In i (zrange lo hi) <-> (lo <= i < hi)%Z.
Proof. unfold zrange. rewrite zrange_steps_In. lia. Qed.

Lemma zrange_length (lo hi : Z) : length (zrange lo hi) = Z.to_nat (hi - lo).
Proof. apply zrange_steps_length. Qed.

Lemma zrange_empty (lo hi : Z) : (hi <= lo)%Z -> zrange lo hi = [].
Proof.
  intros H. unfold zrange. replace (Z.to_nat (hi - lo)) with O by lia. reflexivity.
Qed.

(** ** Grid sampling *)

Section GridSamplingFacts.

Import GridSampling.
Variable approximate_sqrt : Q -> Q.

Lemma Qceiling_div_max (a b s : Q) :
  0 < s ->
  std_max_Z (Qceiling (a / s)) (Qceiling (b / s)) = Qceiling (Qmax a b / s).
Proof.
  intros Hs. unfold std_max_Z.
  assert (Hmono : forall u v, u <= v -> (Qceiling (u / s) <= Qceiling (v / s))%Z).
  { intros u v Huv. apply Qceiling_resp_le. unfold Qdiv.
    apply Qmult_le_compat_r; [exact Huv|].
    apply Qlt_le_weak, Qinv_lt_0_compat, Hs. }
  destruct (Q.max_spec a b) as [[Hlt E]|[Hle E]].
  - rewrite (Qceiling_comp (Qmax a b / s) (b / s)) by (now rewrite E).
    destruct (Z_lt_dec _ _) as [_|Hn]; [reflexivity|].
    pose proof (Hmono a b (Qlt_le_weak _ _ Hlt)). lia.
  - rewrite (Qceiling_comp (Qmax a b / s) (a / s)) by (now rewrite E).
    destruct (Z_lt_dec _ _) as [Hl|_]; [|reflexivity].
    pose proof (Hmono b a Hle). lia.
Qed.

Lemma triangle_grid_sampling_unfold (p0 p1 p2 : Point_3) (d : Q) (out : list Point_3) :
  triangle_grid_sampling approximate_sqrt p0 p1 p2 d out
  = out ++ interior_lattice p0 p1 p2 (grid_rows approximate_sqrt p0 p1 p2 d).
Proof.
  unfold triangle_grid_sampling, interior_lattice, for_loop.
  set (n := grid_rows approximate_sqrt p0 p1 p2 d).
  rewrite (for_steps_ext _
             (fun i o => o ++ map (grid_point p0 p1 p2 n i) (zrange 1 (n - i)))).
  - apply for_steps_flat.
  - intros i a. apply for_steps_append.
Qed.

Lemma interior_lattice_In (p0 p1 p2 : Point_3) (n : Z) (p : Point_3) :
  In p (interior_lattice p0 p1 p2 n) <->
  exists i j, (1 <= i)%Z /\ (1 <= j < n - i)%Z /\ p = grid_point p0 p1 p2 n i j.
Proof.
  unfold interior_lattice. rewrite in_flat_map. split.
  - intros (i & Hi & Hp). apply in_map_iff in Hp as (j & <- & Hj).
    apply zrange_In in Hi, Hj. exists i, j. repeat split; lia.
  - intros (i & j & Hi & Hj & ->). exists i. split.
    + apply zrange_In. lia.
    + apply in_map, zrange_In. lia.
Qed.

Lemma interior_lattice_length (p0 p1 p2 : Point_3) (n : Z) :
  length (interior_lattice p0 p1 p2 n) = interior_count n.
Proof.
  unfold interior_lattice, interior_count.
  induction (zrange 1 n) as [|i l IH]; simpl; [reflexivity|].
  now rewrite length_app, length_map, zrange_length, IH.
Qed.

Lemma interior_count_steps (n : Z) (k : nat) :
  forall lo, (lo + Z.of_nat k = n)%Z ->
  (2 * Z.of_nat (fold_right (fun i acc => (Z.to_nat (n - i - 1) + acc)%nat) O
                            (zrange_steps k lo))
   = Z.of_nat k * (Z.of_nat k - 1))%Z.
Proof.
  induction k as [|k IH]; intros lo Hn; simpl fold_right; [reflexivity|].
  specialize (IH (lo + 1)%Z ltac:(lia)). nia.
Qed.

Lemma interior_count_closed (n : Z) :
  (2 <= n)%Z -> (Z.of_nat (interior_count n) = (n - 1) * (n - 2) / 2)%Z.
Proof.
  intros Hn. unfold interior_count, zrange.
  pose proof (interior_count_steps n (Z.to_nat (n - 1)) 1%Z ltac:(lia)) as H.
  rewrite Z2Nat.id in H by lia.
  replace ((n - 1) * (n - 2))%Z with ((n - 1) * (n - 1 - 1))%Z by lia.
  rewrite <- H, Z.mul_comm, Z.div_mul by lia. reflexivity.
Qed.

Lemma interior_count_small (n : Z) : (n <= 1)%Z -> interior_count n = O.
Proof. intros Hn. unfold interior_count. now rewrite zrange_empty by lia. Qed.


End GridSamplingFacts.
(** ** The shortest-edge search *)

Section MinimumEdgeLength.

Import Sampler.

Lemma DBL_MAX_pos : 0 < DBL_MAX.
Proof. unfold DBL_MAX. rewrite <- (Zlt_Qlt 0). reflexivity. Qed.

Lemma min_edge_step_out (s : Sampler_state) (q : Q) : out (min_edge_step s q) = out s.
Proof. unfold min_edge_step. repeat destruct (Qlt_le_dec _ _); reflexivity. Qed.

(** What the loop leaves in [min_sq_edge_length]: a positive value, the
    initial one or one of the positive squared lengths, below every
    positive squared length and below the initial value. *)
Lemma fold_min_edge_step (l : list Q) :
  forall s, 0 < min_sq_edge_length s ->
  let m := min_sq_edge_length (fold_left min_edge_step l s) in
  0 < m
  /\ m <= min_sq_edge_length s
  /\ (m = min_sq_edge_length s \/ (In m l /\ m < min_sq_edge_length s))
  /\ (forall q, In q l -> 0 < q -> m <= q)
  /\ out (fold_left min_edge_step l s) = out s.
Proof.
  induction l as [|q l IH]; intros s Hs; simpl.
  - repeat split; [exact Hs | apply Qle_refl | now left | tauto].
  - assert (Hstep : 0 < min_sq_edge_length (min_edge_step s q)
                    /\ min_sq_edge_length (min_edge_step s q) <= min_sq_edge_length s
                    /\ (0 < q -> min_sq_edge_length (min_edge_step s q) <= q)
                    /\ (min_sq_edge_length (min_edge_step s q) = min_sq_edge_length s
                        \/ (min_sq_edge_length (min_edge_step s q) = q
                            /\ q < min_sq_edge_length s))).
    { unfold min_edge_step.
      destruct (Qlt_le_dec 0 q) as [Hq|Hq];
        [destruct (Qlt_le_dec q (min_sq_edge_length s)) as [Hlt|Hge]|]; simpl.
      - repeat split; [exact Hq | now apply Qlt_le_weak | intros; apply Qle_refl | now right].
      - repeat split; [exact Hs | apply Qle_refl | now intros | now left].
      - repeat split; [exact Hs | apply Qle_refl | | now left].
        intros Hq'. exfalso. apply (Qlt_irrefl 0). eapply Qlt_le_trans; eauto. }
    destruct Hstep as (Hpos & Hle & Hq & Hcase).
    destruct (IH _ Hpos) as (H1 & H2 & H3 & H4 & H5).
    repeat split.
    + exact H1.
    + eapply Qle_trans; eauto.
    + destruct H3 as [E|[Hin Hlt]].
      * rewrite E. destruct Hcase as [E'|[E' Hlt]]; [now left|].
        right. rewrite E'. split; [now left | exact Hlt].
      * right. split; [now right|]. eapply Qlt_le_trans; eauto.
    + intros q' [<-|Hin] Hq'.
      * eapply Qle_trans; [exact H2 | now apply Hq].
      * now apply H4.
    + now rewrite H5, min_edge_step_out.
Qed.

Lemma fold_left_map_step {A : Type} (f : A -> Q) (l : list A) :
  forall s,
    fold_left (fun s a => min_edge_step s (f a)) l s
    = fold_left min_edge_step (map f l) s.
Proof. induction l as [|a l IH]; intros s; simpl; [reflexivity | apply IH]. Qed.

Lemma Qeq_bool_DBL_MAX : Qeq_bool DBL_MAX DBL_MAX = true.
Proof. apply Qeq_bool_refl. Qed.

(** The mesh member as a fold over the squared lengths. *)
Lemma mesh_get_minimum_edge_length_fresh tm pmap (o : list Point_3) :
  MeshSampler.get_minimum_edge_length tm pmap (constructed o)
  = (let s := fold_left min_edge_step (MeshSampler.squared_edge_lengths tm pmap)
                        (constructed o) in
     (min_sq_edge_length s, s)).
Proof.
  unfold MeshSampler.get_minimum_edge_length, MeshSampler.squared_edge_lengths.
  cbn [constructed min_sq_edge_length]. rewrite Qeq_bool_DBL_MAX. cbn [negb].
  now rewrite fold_left_map_step.
Qed.

Lemma soup_fold_triangles points (l : list SoupSampler.TriangleType) :
  forall s,
    fold_left
      (fun s tr =>
         for_loop 0 3
           (fun i s =>
              let a := SoupSampler.point_at points (SoupSampler.at_index tr (Z.to_nat i)) in
              let b := SoupSampler.point_at points
                         (SoupSampler.at_index tr (Z.to_nat ((i + 1) mod 3))) in
              let sq_el := squared_distance a b in
              min_edge_step s sq_el)
           s)
      l s
    = fold_left min_edge_step (SoupSampler.squared_edge_lengths points l) s.
Proof.
  induction l as [|tr l IH]; intros s; [reflexivity|].
  cbn [fold_left]. rewrite IH.
  unfold SoupSampler.squared_edge_lengths. cbn [flat_map].
  rewrite fold_left_app. reflexivity.
Qed.

Lemma soup_get_minimum_edge_length_fresh points triangles (o : list Point_3) :
  SoupSampler.get_minimum_edge_length points triangles (constructed o)
  = (let s := fold_left min_edge_step (SoupSampler.squared_edge_lengths points triangles)
                        (constructed o) in
     (min_sq_edge_length s, s)).
Proof.
  unfold SoupSampler.get_minimum_edge_length.
  cbn [constructed min_sq_edge_length]. rewrite Qeq_bool_DBL_MAX. cbn [negb].
  now rewrite soup_fold_triangles.
Qed.

(** The value found over a list of finite squared lengths with a positive
    one among them. *)
Lemma shortest_positive (l : list Q) (o : list Point_3) :
  (exists q, In q l /\ 0 < q) ->
  (forall q, In q l -> q <= DBL_MAX) ->
  let m := min_sq_edge_length (fold_left min_edge_step l (constructed o)) in
  0 < m /\ (exists q, In q l /\ q == m) /\ (forall q, In q l -> 0 < q -> m <= q).
Proof.
  intros (q0 & Hin0 & Hq0) Hfin m.
  destruct (fold_min_edge_step l (constructed o) DBL_MAX_pos) as (H1 & H2 & H3 & H4 & _).
  fold m in H1, H2, H3, H4. repeat split; [exact H1 | | exact H4].
  destruct H3 as [E|[Hin _]]; [|exists m; split; [exact Hin | reflexivity]].
  cbn [constructed min_sq_edge_length] in E.
  exists q0. split; [exact Hin0|].
  apply Qle_antisym; [|now apply H4].
  rewrite E. now apply Hfin.
Qed.

Lemma checked_div_pos (a b : Q) : 0 < b -> checked_div a b = Some (a / b).
Proof.
  intros Hb. unfold checked_div.
  destruct (Qeq_bool b 0) eqn:E; [|reflexivity].
  apply Qeq_bool_eq in E. rewrite E in Hb. now apply Qlt_irrefl in Hb.
Qed.

End MinimumEdgeLength.

(** ** No division by zero in [procede] *)

Section ProcedeTotal.

Import Sampler.

Context {Tr : Type} (D : Derived Tr).
Variable Random_points_in_triangle_3 : Point_3 -> Point_3 -> Point_3 -> Generator.

Let positive (s : Sampler_state) : Prop := 0 < min_sq_edge_length s.

Hypothesis sample_points_positive :
  forall s, positive s -> positive (sample_points D s).
Hypothesis get_minimum_edge_length_positive :
  forall s, positive s ->
            0 < fst (get_minimum_edge_length D s)
            /\ positive (snd (get_minimum_edge_length D s)).
Hypothesis internal_sample_triangles_positive :
  forall g b1 b2 s, positive s -> positive (internal_sample_triangles D g b1 b2 s).
Hypothesis ms_edges_sample_defined :
  forall n q s, positive s -> ms_edges_sample D n q s <> None.

Lemma copy_n_min (g : Generator) (n : Z) (s : Sampler_state) :
  min_sq_edge_length (copy_n g n s) = min_sq_edge_length s.
Proof. reflexivity. Qed.

Lemma ms_sample_faces_min (nbf : Z) (a_u : Q) (l : list Tr) :
  forall s,
    min_sq_edge_length
      (fold_left (ms_sample_face D Random_points_in_triangle_3 nbf a_u) l s)
    = min_sq_edge_length s.
Proof.
  induction l as [|tr l IH]; intros s; simpl; [reflexivity|].
  rewrite IH. unfold ms_sample_face.
  destruct (get_tr_points D tr) as [[q0 q1] q2]. reflexivity.
Qed.

Lemma procede_monte_carlo_defined np fcs dgs a_u l_u s :
  positive s ->
  procede_monte_carlo D Random_points_in_triangle_3 np fcs dgs a_u l_u s <> None.
Proof.
  intros Hs. unfold procede_monte_carlo.
  set (nbf := choose_parameter (number_of_points_per_face np) 0%Z).
  set (nbe := choose_parameter (number_of_points_per_edge np) 0%Z).
  set (c := ((nbf =? 0)%Z && Qeq_bool a_u 0) || ((nbe =? 0)%Z && Qeq_bool l_u 0)).
  assert (H : exists m s', (if c then get_minimum_edge_length D s else (DBL_MAX, s)) = (m, s')
                           /\ 0 < m /\ positive s').
  { destruct c.
    - destruct (get_minimum_edge_length_positive s Hs) as [Hm Hs'].
      destruct (get_minimum_edge_length D s) as [m s']. now exists m, s'.
    - exists DBL_MAX, s.
      split; [reflexivity | split; [apply DBL_MAX_pos | exact Hs]]. }
  destruct H as (m & s' & -> & Hm & Hs').
  destruct fcs.
  - unfold ms_default_nb_pts_a_u.
    destruct ((nbf =? 0)%Z && Qeq_bool a_u 0);
      [rewrite (checked_div_pos 2 m Hm)|];
      (destruct dgs; [|discriminate]);
      match goal with
      | |- context [ms_edges_sample D ?n ?q ?t] =>
          pose proof (ms_edges_sample_defined n q t) as Hd;
          destruct (ms_edges_sample D n q t); [discriminate|];
          intros _; apply Hd; [|reflexivity]
      end;
      unfold positive; now rewrite ms_sample_faces_min.
  - destruct dgs; [|discriminate].
    pose proof (ms_edges_sample_defined nbe l_u s' Hs') as Hd.
    destruct (ms_edges_sample D nbe l_u s'); [discriminate | intros _; now apply Hd].
Qed.

Lemma procede_defined np s :
  positive s -> procede D Random_points_in_triangle_3 np s <> None.
Proof.
  intros Hs. unfold procede.
  set (s1 := if choose_parameter (do_sample_vertices np) true
             then sample_points D s else s).
  assert (H1 : positive s1).
  { unfold s1. destruct (choose_parameter (do_sample_vertices np) true);
      [now apply sample_points_positive | exact Hs]. }
  match goal with
  | |- match (if ?ms then procede_monte_carlo _ _ _ _ _ _ _ ?s2 else _) with _ => _ end <> _ =>
      assert (H2 : positive s2); [|set (t := s2) in *; destruct ms]
  end.
  - destruct (choose_parameter (grid_sampling np) false); [|exact H1].
    unfold procede_grid_spacing.
    destruct (Qeq_bool _ 0).
    + destruct (get_minimum_edge_length_positive s1 H1) as [_ Hs'].
      destruct (get_minimum_edge_length D s1) as [g s']. cbn [snd] in Hs'.
      now apply internal_sample_triangles_positive.
    + now apply internal_sample_triangles_positive.
  - match goal with
    | |- match ?e with _ => _ end <> _ =>
        pose proof (procede_monte_carlo_defined np
                      (choose_parameter (do_sample_faces np) true)
                      (choose_parameter (do_sample_edges np) true)
                      (choose_parameter (nb_points_per_area_unit np) 0)
                      (choose_parameter (nb_points_per_distance_unit np) 0) t H2) as Hd;
        destruct e as [[? ?]|]; [discriminate | intros _; now apply Hd]
    end.
  - discriminate.
Qed.

End ProcedeTotal.

(** ** The two samplers *)

Section SamplersTotal.

Import Sampler.

Variables approximate_sqrt sqrt : Q -> Q.
Variable face_area : Point_3 -> Point_3 -> Point_3 -> Q.
Variable Random_points_on_segment_3 : Point_3 -> Point_3 -> Generator.
Variable Random_points_in_triangle_3 : Point_3 -> Point_3 -> Point_3 -> Generator.
Variables in_mesh on_edges in_soup : Weighted_generator.

Variable tm : MeshSampler.Triangle_mesh.
Variable pmap : nat -> Point_3.
Variable points : list Point_3.
Variable triangles : list SoupSampler.TriangleType.

Hypothesis sqrt_positive : forall q, 0 < q -> 0 < sqrt q.

Lemma mesh_get_minimum_edge_length_positive (s : Sampler_state) :
  0 < min_sq_edge_length s ->
  0 < fst (MeshSampler.get_minimum_edge_length tm pmap s)
  /\ 0 < min_sq_edge_length (snd (MeshSampler.get_minimum_edge_length tm pmap s)).
Proof.
  intros Hs. unfold MeshSampler.get_minimum_edge_length.
  destruct (negb _); cbn [fst snd]; [now split|].
  rewrite fold_left_map_step.
  destruct (fold_min_edge_step
              (map (fun ed => squared_distance (pmap (MeshSampler.source ed))
                                               (pmap (MeshSampler.target ed)))
                   (MeshSampler.edges tm)) s Hs) as (H & _).
  now split.
Qed.

Lemma soup_get_minimum_edge_length_positive (s : Sampler_state) :
  0 < min_sq_edge_length s ->
  0 < fst (SoupSampler.get_minimum_edge_length points triangles s)
  /\ 0 < min_sq_edge_length (snd (SoupSampler.get_minimum_edge_length points triangles s)).
Proof.
  intros Hs. unfold SoupSampler.get_minimum_edge_length.
  destruct (negb _); cbn [fst snd]; [now split|].
  rewrite soup_fold_triangles.
  destruct (fold_min_edge_step (SoupSampler.squared_edge_lengths points triangles) s Hs)
    as (H & _).
  now split.
Qed.

Lemma mesh_ms_default_nb_pts_l_u (nbe : Z) (l_u : Q) (s : Sampler_state) :
  0 < min_sq_edge_length s ->
  MeshSampler.ms_default_nb_pts_l_u sqrt nbe l_u s
  = Some (if (nbe =? 0)%Z && Qeq_bool l_u 0
          then 1 / sqrt (min_sq_edge_length s) else l_u).
Proof.
  intros Hs. unfold MeshSampler.ms_default_nb_pts_l_u.
  destruct ((nbe =? 0)%Z && Qeq_bool l_u 0); [|reflexivity].
  apply checked_div_pos, sqrt_positive, Hs.
Qed.

Lemma soup_internal_sample_triangles_min (d : Q) (b1 b2 : bool) (s : Sampler_state) :
  min_sq_edge_length
    (SoupSampler.internal_sample_triangles approximate_sqrt points triangles d b1 b2 s)
  = min_sq_edge_length s.
Proof.
  unfold SoupSampler.internal_sample_triangles.
  revert s. induction triangles as [|tr l IH]; intros s; simpl; [reflexivity|].
  now rewrite IH.
Qed.

Lemma sample_triangle_mesh_defined (np : Named_parameters) (o : list Point_3) :
  MeshSampler.sample_triangle_mesh approximate_sqrt sqrt face_area
    Random_points_on_segment_3 tm pmap in_mesh on_edges
    Random_points_in_triangle_3 o np <> None.
Proof.
  unfold MeshSampler.sample_triangle_mesh.
  match goal with
  | |- match ?e with _ => _ end <> _ =>
      assert (H : e <> None); [|destruct e; [discriminate | now elim H]]
  end.
  apply procede_defined; cbn.
  - now intros s Hs.
  - apply mesh_get_minimum_edge_length_positive.
  - now intros g b1 b2 s Hs.
  - intros n q s Hs. unfold MeshSampler.ms_edges_sample.
    now rewrite mesh_ms_default_nb_pts_l_u.
  - apply DBL_MAX_pos.
Qed.

Lemma sample_triangle_soup_defined (np : Named_parameters) (o : list Point_3) :
  SoupSampler.sample_triangle_soup approximate_sqrt
    points triangles in_soup Random_points_in_triangle_3 o np <> None.
Proof.
  unfold SoupSampler.sample_triangle_soup.
  match goal with
  | |- match ?e with _ => _ end <> _ =>
      assert (H : e <> None); [|destruct e; [discriminate | now elim H]]
  end.
  apply procede_defined; cbn.
  - now intros s Hs.
  - apply soup_get_minimum_edge_length_positive.
  - intros g b1 b2 s Hs. now rewrite soup_internal_sample_triangles_min.
  - discriminate.
  - apply DBL_MAX_pos.
Qed.


End SamplersTotal.

(** ** Defaults of the sampler on concrete meshes *)

Section SamplerDefaults.

Import Sampler Examples.

Lemma procede_grid_spacing_default {Tr : Type} (D : Derived Tr)
      (np : Named_parameters) (s : Sampler_state) :
  grid_spacing np = None ->
  procede_grid_spacing D np s = get_minimum_edge_length D s.
Proof. intros E. unfold procede_grid_spacing. now rewrite E. Qed.

(** C4.  On the right triangle with legs of length 2 (shortest edge
    length 2, squared 4), grid sampling without a [grid_spacing]
    parameter hands the spacing 4, the squared length, to the grid
    sampler: the points it writes are those of an explicit spacing 4 and
    not those of an explicit spacing 2. *)
Theorem default_grid_spacing_is_squared_length :
  let D := MeshSampler.sampler_for_triangle_mesh sqrt_up sqrt_up area_up
             midpoint_generator one_triangle (corner 2)
             origin_generator origin_generator np_grid in
  let lengths := MeshSampler.squared_edge_lengths one_triangle (corner 2) in
  (forall q, In q lengths -> 2 * 2 <= q)
  /\ (exists q, In q lengths /\ q == 2 * 2)
  /\ fst (procede_grid_spacing D np_grid (constructed [])) == 4
  /\ ~ 4 == 2
  /\ sample_mesh one_triangle 2 np_grid = sample_mesh one_triangle 2 (np_grid_spacing 4)
  /\ sample_mesh one_triangle 2 np_grid <> sample_mesh one_triangle 2 (np_grid_spacing 2).
Proof.
  cbv zeta. split; [|split; [|split; [|split; [|split]]]].
  - intros q Hq. vm_compute in Hq.
    destruct Hq as [<-|[<-|[<-|[]]]]; vm_compute; discriminate.
  - exists 4. split; [vm_compute; tauto | reflexivity].
  - vm_compute. reflexivity.
  - intros H. vm_compute in H. discriminate.
  - vm_compute. reflexivity.
  - vm_compute. discriminate.
Qed.

(** C5.  On the right triangle with unit legs (area 1/2) and 100 points
    per area unit, the Monte-Carlo branch draws 100 points in the face:
    the area is rounded up before it is multiplied by the density, where
    [max(1, ceil(area * density))] is 50. *)
Theorem monte_carlo_face_count_rounds_area_first :
  let D := MeshSampler.sampler_for_triangle_mesh sqrt_up sqrt_up area_up
             midpoint_generator one_triangle (corner 1)
             origin_generator origin_generator (np_monte_carlo_faces 100) in
  get_tr_area D (0, 1, 2)%nat == 1 # 2
  /\ ms_face_nb_points D 0 100 (0, 1, 2)%nat = 100%Z
  /\ Z.max 1 (Qceiling (get_tr_area D (0, 1, 2)%nat * 100)) = 50%Z
  /\ option_map (@length Point_3) (sample_mesh one_triangle 1 (np_monte_carlo_faces 100))
     = Some 100%nat.
Proof.
  cbv zeta. repeat split; vm_compute; reflexivity.
Qed.

End SamplerDefaults.

(** ** Maxima *)

Lemma update_max (a b : Q) : (if Qlt_le_dec a b then b else a) == Qmax a b.
Proof.
  destruct (Qlt_le_dec a b) as [H|H].
  - symmetry. apply Q.max_r. now apply Qlt_le_weak.
  - symmetry. now apply Q.max_l.
Qed.

Lemma std_max_Qmax (a b : Q) : std_max a b == Qmax a b.
Proof. apply update_max. Qed.

Lemma firstn_plus {A : Type} (n k : nat) :
  forall l : list A, firstn (n + k) l = firstn n l ++ firstn k (skipn n l).
Proof.
  induction n as [|n IH]; intros l; [reflexivity|].
  destruct l as [|a l]; simpl.
  - now rewrite firstn_nil.
  - now rewrite IH.
Qed.

(** ** The approximate distance: sequential loop and parallel reduction *)

Section ApproxFacts.

Import ApproxHausdorff.

Variable approximate_sqrt : Q -> Q.
Variable tree : AABB_tree.

Hypothesis approximate_sqrt_compat : Proper (Qeq ==> Qeq) approximate_sqrt.

Local Abbreviation dsurf := (distance_to_surface approximate_sqrt tree).
Local Abbreviation maxo := (max_over approximate_sqrt tree).

(** The squared distance to the point returned does not depend on the
    hint. *)
Lemma closest_point_hint_free (query h1 h2 : Point_3) :
  squared_distance (closest_point tree query h1) query
  == squared_distance (closest_point tree query h2) query.
Proof.
  apply Qle_antisym; apply closest_point_nearest, closest_point_on_surface.
Qed.

Lemma query_distance (pt h : Point_3) :
  approximate_sqrt (squared_distance (closest_point tree pt h) pt) == dsurf pt.
Proof.
  unfold dsurf, distance_to_surface. apply approximate_sqrt_compat.
  apply closest_point_hint_free.
Qed.

Lemma max_over_cons (pt : Point_3) (l : list Point_3) (a : Q) :
  maxo (pt :: l) a = maxo l (Qmax a (dsurf pt)).
Proof. reflexivity. Qed.

Lemma max_over_compat (l : list Point_3) :
  forall a b, a == b -> maxo l a == maxo l b.
Proof.
  induction l as [|pt l IH]; intros a b E; [exact E|].
  rewrite !max_over_cons. apply IH. now rewrite E.
Qed.

Lemma max_over_ge (l : list Point_3) : forall a, a <= maxo l a.
Proof.
  induction l as [|pt l IH]; intros a; [apply Qle_refl|].
  rewrite max_over_cons.
  eapply Qle_trans; [apply Q.le_max_l | apply IH].
Qed.

Lemma max_over_seed (l : list Point_3) :
  forall a b, b <= a -> maxo l a == Qmax a (maxo l b).
Proof.
  induction l as [|pt l IH]; intros a b Hba.
  - symmetry. now apply Q.max_l.
  - rewrite !max_over_cons.
    rewrite (IH (Qmax a (dsurf pt)) (Qmax b (dsurf pt)))
      by (now apply Q.max_le_compat_r).
    pose proof (max_over_ge l (Qmax b (dsurf pt))) as HM.
    set (M := maxo l (Qmax b (dsurf pt))) in *.
    rewrite <- Q.max_assoc.
    assert (E : Qmax (dsurf pt) M == M).
    { apply Q.max_r. eapply Qle_trans; [apply Q.le_max_r | exact HM]. }
    now rewrite E.
Qed.

Lemma max_over_app (l1 l2 : list Point_3) (a : Q) :
  maxo (l1 ++ l2) a == Qmax (maxo l1 a) (maxo l2 a).
Proof.
  replace (maxo (l1 ++ l2) a) with (maxo l2 (maxo l1 a))
    by (unfold max_over; now rewrite fold_left_app).
  apply max_over_seed, max_over_ge.
Qed.

(** The loop computes the running maximum of the distances to the
    surface, whatever the hint. *)
Lemma query_loop_fold (l : list Point_3) :
  forall st a, hdist st == a ->
               hdist (fold_left (query_step approximate_sqrt tree) l st) == maxo l a.
Proof.
  induction l as [|pt l IH]; intros st a E; [exact E|].
  rewrite max_over_cons. cbn [fold_left]. apply IH. cbn [query_step hdist].
  now rewrite update_max, query_distance, E.
Qed.

Lemma query_loop_hdist (l : list Point_3) (h : Point_3) :
  hdist (query_loop approximate_sqrt tree l h) == maxo l 0.
Proof. apply query_loop_fold. reflexivity. Qed.

Lemma subrange_split (l : list Point_3) (b m e : nat) :
  (b <= m <= e)%nat -> subrange l b e = subrange l b m ++ subrange l m e.
Proof.
  intros H. unfold subrange.
  replace (e - b)%nat with ((m - b) + (e - m))%nat by lia.
  rewrite firstn_plus, skipn_skipn.
  now replace (m - b + b)%nat with m by lia.
Qed.

Lemma covers_le (sch : Schedule) : forall b e, covers sch b e -> (b < e)%nat.
Proof.
  induction sch as [b' e'|s1 IH1 s2 IH2|s1 IH1 s2 IH2]; intros b e; simpl.
  - lia.
  - intros (m & H1 & H2). apply IH1 in H1. apply IH2 in H2. lia.
  - intros (m & H1 & H2). apply IH1 in H1. apply IH2 in H2. lia.
Qed.

(** A body that went through a schedule over [b, e) holds the maximum of
    what it held before and the distances of that range. *)
Lemma reduce_distance (pts : list Point_3) (sch : Schedule) :
  forall b e f,
    covers sch b e ->
    distance (reduce approximate_sqrt tree pts sch f)
    == Qmax (distance f) (maxo (subrange pts b e) 0)
    /\ initial_hint (reduce approximate_sqrt tree pts sch f) = initial_hint f.
Proof.
  induction sch as [b' e'|s1 IH1 s2 IH2|s1 IH1 s2 IH2]; intros b e f; simpl.
  - intros (-> & -> & _). split; [|reflexivity].
    now rewrite update_max, query_loop_hdist.
  - intros (m & H1 & H2).
    pose proof (covers_le _ _ _ H1). pose proof (covers_le _ _ _ H2).
    destruct (IH1 b m f H1) as [E1 I1].
    destruct (IH2 m e (reduce approximate_sqrt tree pts s1 f) H2) as [E2 I2].
    split; [|now rewrite I2, I1].
    rewrite E2, E1, (subrange_split pts b m e) by lia.
    now rewrite max_over_app, Q.max_assoc.
  - intros (m & H1 & H2).
    pose proof (covers_le _ _ _ H1). pose proof (covers_le _ _ _ H2).
    destruct (IH1 b m f H1) as [E1 I1].
    destruct (IH2 m e (split f) H2) as [E2 _].
    split; [|exact I1].
    rewrite std_max_Qmax, E2, E1, (subrange_split pts b m e) by lia.
    rewrite max_over_app. cbn [split distance].
    assert (Hneg : Qmax (-1) (maxo (subrange pts m e) 0) == maxo (subrange pts m e) 0).
    { apply Q.max_r. apply Qle_trans with 0; [discriminate | apply max_over_ge]. }
    rewrite Hneg, Q.max_comm, Q.max_assoc. reflexivity.
Qed.

Lemma subrange_all (pts : list Point_3) : subrange pts 0 (length pts) = pts.
Proof. unfold subrange. now rewrite skipn_0, Nat.sub_0_r, firstn_all. Qed.

(** C3.  On a non-empty range of sample points, the parallel mode (every
    body with its own hint and maximum, joined by a maximum) returns the
    same value as the sequential mode, for every way the reduction splits
    the range. *)
Theorem parallel_equals_sequential (sample_points : list Point_3) (hint : Point_3)
        (sch : Schedule) :
  sample_points <> [] ->
  covers sch 0 (length sample_points) ->
  approximate_Hausdorff_distance_impl approximate_sqrt tree Parallel_tag sch
                                      sample_points hint
  == approximate_Hausdorff_distance_impl approximate_sqrt tree Sequential_tag sch
                                         sample_points hint.
Proof.
  intros Hne Hcov. unfold approximate_Hausdorff_distance_impl, parallel_reduce.
  destruct sample_points as [|pt pts]; [now elim Hne|].
  destruct (reduce_distance (pt :: pts) sch 0 (length (pt :: pts)) (body hint) Hcov)
    as [E _].
  rewrite E, subrange_all, query_loop_hdist. cbn [body distance].
  apply Q.max_r. apply Qle_trans with 0; [discriminate | apply max_over_ge].
Qed.

(** C10.  Two sequential runs that differ only in the initial hint return
    the same maximum distance. *)
Theorem sequential_hint_independent (sample_points : list Point_3) (sch : Schedule)
        (hint1 hint2 : Point_3) :
  approximate_Hausdorff_distance_impl approximate_sqrt tree Sequential_tag sch
                                      sample_points hint1
  == approximate_Hausdorff_distance_impl approximate_sqrt tree Sequential_tag sch
                                         sample_points hint2.
Proof.
  unfold approximate_Hausdorff_distance_impl. now rewrite !query_loop_hdist.
Qed.

End ApproxFacts.

(** ** The order of the closest-point queries *)

Section QueryOrder.

Import ApproxHausdorff Examples.

Lemma query_loop_queries approximate_sqrt tree (l : list Point_3) :
  forall st,
    map fst (queries (fold_left (query_step approximate_sqrt tree) l st))
    = map fst (queries st) ++ l.
Proof.
  induction l as [|pt l IH]; intros st; simpl.
  - now rewrite app_nil_r.
  - rewrite IH. cbn [query_step queries]. rewrite map_app, <- app_assoc. reflexivity.
Qed.

(** The queries are made on the range as it was passed, in its order: the
    sorted copy is not read. *)
Lemma approximate_Hausdorff_distance_queries_order
      approximate_sqrt spatial_sort build (pts : list Point_3) tm vpm :
  map fst (approximate_Hausdorff_distance_queries approximate_sqrt spatial_sort build
                                                  pts tm vpm)
  = pts.
Proof.
  unfold approximate_Hausdorff_distance_queries, approximate_Hausdorff_distance_call,
    query_loop.
  now rewrite query_loop_queries.
Qed.

(** C6.  On three sample points that are not in spatial order, the
    closest-point queries of [approximate_Hausdorff_distance] are made on
    the points in the order they were passed, and not on the sorted
    sequence. *)
Theorem queries_on_unsorted_points :
  let build := fun (_ : MeshSampler.Triangle_mesh) (_ : nat -> Point_3) => plane_tree in
  let made := approximate_Hausdorff_distance_queries
                sqrt_up sort_by_x build three_samples one_triangle (corner 1) in
  let described := sorted_queries
                     sqrt_up sort_by_x build three_samples one_triangle (corner 1) in
  map fst made = three_samples
  /\ map fst described = sort_by_x three_samples
  /\ sort_by_x three_samples = [mkPoint 1 0 3; mkPoint 2 0 2; mkPoint 3 0 1]
  /\ made <> described.
Proof.
  cbv zeta. repeat split; try (vm_compute; reflexivity).
  vm_compute. discriminate.
Qed.

End QueryOrder.

(** ** Midpoint subdivision *)

Section Subdivision.

Import BoundedError.

Lemma squared_distance_to_midpoint (a b : Point_3) :
  squared_distance a (midpoint a b) == squared_distance a b / 4.
Proof. unfold squared_distance, midpoint. cbn [x y z]. field. Qed.

Lemma squared_distance_to_midpoint' (a b : Point_3) :
  squared_distance b (midpoint a b) == squared_distance a b / 4.
Proof. unfold squared_distance, midpoint. cbn [x y z]. field. Qed.

(** Midpoints of two edges out of a common vertex [a]. *)
Lemma squared_distance_midpoints_out (a b c : Point_3) :
  squared_distance (midpoint a b) (midpoint a c) == squared_distance b c / 4.
Proof. unfold squared_distance, midpoint. cbn [x y z]. field. Qed.

(** Midpoints of two edges into a common vertex [c]. *)
Lemma squared_distance_midpoints_in (a b c : Point_3) :
  squared_distance (midpoint a c) (midpoint b c) == squared_distance a b / 4.
Proof. unfold squared_distance, midpoint. cbn [x y z]. field. Qed.

(** Midpoints of two edges that meet in [b]. *)
Lemma squared_distance_midpoints_through (a b c : Point_3) :
  squared_distance (midpoint a b) (midpoint b c) == squared_distance a c / 4.
Proof. unfold squared_distance, midpoint. cbn [x y z]. field. Qed.

Lemma pow4_succ (n : nat) :
  inject_Z (4 ^ Z.of_nat (S n)) == 4 * inject_Z (4 ^ Z.of_nat n).
Proof.
  rewrite Nat2Z.inj_succ, Z.pow_succ_r by lia.
  now rewrite inject_Z_mult.
Qed.

Lemma quarter_below (bound q q' : Q) (n : nat) :
  q' == q / 4 ->
  q < bound * inject_Z (4 ^ Z.of_nat (S n)) ->
  q' < bound * inject_Z (4 ^ Z.of_nat n).
Proof.
  intros E H. rewrite pow4_succ in H. rewrite E.
  set (P := inject_Z (4 ^ Z.of_nat n)) in *.
  assert (E4 : bound * (4 * P) == 4 * (bound * P)) by ring.
  rewrite E4 in H. set (B := bound * P) in *.
  unfold Qdiv. change (/ 4) with (1 # 4). lra.
Qed.

(** Each of the four sub-triangles is one level closer to the edge
    test. *)
Lemma within_sub_triangles (bound : Q) (n : nat) (v0 v1 v2 : Point_3) :
  within bound (S n) v0 v1 v2 ->
  Forall (fun t => within bound n (vertex0 t) (vertex1 t) (vertex2 t))
         (sub_triangles v0 v1 v2).
Proof.
  intros (H01 & H02 & H12). unfold sub_triangles.
  repeat constructor; cbn [vertex0 vertex1 vertex2];
    eapply quarter_below;
    first [ exact H01 | exact H02 | exact H12
          | apply squared_distance_to_midpoint
          | apply squared_distance_to_midpoint'
          | apply squared_distance_midpoints_out
          | apply squared_distance_midpoints_in
          | apply squared_distance_midpoints_through ].
Qed.

Lemma within_first_level (bound : Q) (v0 v1 v2 : Point_3) :
  within bound 0 v0 v1 v2 <->
  squared_distance v0 v1 < bound /\ squared_distance v0 v2 < bound
  /\ squared_distance v1 v2 < bound.
Proof.
  unfold within. cbn [Z.of_nat Z.pow]. change (inject_Z (4 ^ 0)) with 1.
  rewrite Qmult_1_r. reflexivity.
Qed.

(** Squared lengths are finite: some number of subdivisions brings them
    below any positive bound. *)
Lemma below_some_power (bound q : Q) :
  0 < bound -> exists n, q < bound * inject_Z (4 ^ Z.of_nat n).
Proof.
  intros Hb.
  set (k := Z.to_nat (Qceiling (q / bound))).
  exists k.
  assert (Hk : (Qceiling (q / bound) <= Z.of_nat k)%Z) by (unfold k; lia).
  assert (Hpow : (Z.of_nat k < 4 ^ Z.of_nat k)%Z) by (apply Z.pow_gt_lin_r; lia).
  assert (Hq : q / bound < inject_Z (4 ^ Z.of_nat k)).
  { eapply Qle_lt_trans; [apply Qle_ceiling|].
    rewrite <- Zlt_Qlt. lia. }
  assert (E : q == q / bound * bound)
    by (field; intros E; rewrite E in Hb; now apply Qlt_irrefl in Hb).
  rewrite E, (Qmult_comm bound). apply Qmult_lt_compat_r; assumption.
Qed.

Lemma within_mono (bound : Q) (n m : nat) (v0 v1 v2 : Point_3) :
  0 < bound -> (n <= m)%nat -> within bound n v0 v1 v2 -> within bound m v0 v1 v2.
Proof.
  intros Hb Hnm (H1 & H2 & H3).
  assert (Hp : inject_Z (4 ^ Z.of_nat n) <= inject_Z (4 ^ Z.of_nat m)).
  { rewrite <- Zle_Qle. apply Z.pow_le_mono_r; lia. }
  assert (Hm : bound * inject_Z (4 ^ Z.of_nat n) <= bound * inject_Z (4 ^ Z.of_nat m)).
  { apply Qmult_le_l; assumption. }
  repeat split; eapply Qlt_le_trans; eauto.
Qed.

Lemma within_some_level (bound : Q) (v0 v1 v2 : Point_3) :
  0 < bound -> exists n, within bound n v0 v1 v2.
Proof.
  intros Hb.
  destruct (below_some_power bound (squared_distance v0 v1) Hb) as [n1 H1].
  destruct (below_some_power bound (squared_distance v0 v2) Hb) as [n2 H2].
  destruct (below_some_power bound (squared_distance v1 v2) Hb) as [n3 H3].
  exists (Nat.max n1 (Nat.max n2 n3)).
  assert (Hp : forall n, (n <= Nat.max n1 (Nat.max n2 n3))%nat ->
                         bound * inject_Z (4 ^ Z.of_nat n)
                         <= bound * inject_Z (4 ^ Z.of_nat (Nat.max n1 (Nat.max n2 n3)))).
  { intros n Hn. apply Qmult_le_l; [exact Hb|].
    rewrite <- Zle_Qle. apply Z.pow_le_mono_r; lia. }
  repeat split; eapply Qlt_le_trans; eauto; apply Hp; lia.
Qed.

Lemma error_bound_squared_pos (error_bound : Q) :
  0 < error_bound -> 0 < error_bound * error_bound.
Proof. intros H. nra. Qed.

End Subdivision.

(** ** The naive validator terminates *)

Section NaiveTerminates.

Import BoundedError.

Variable closest_point : Point_3 -> Point_3.
Variable approximate_sqrt : Q -> Q.

Lemma std_max_below (a b c : Q) : a < c -> b < c -> std_max a b < c.
Proof. intros Ha Hb. unfold std_max. now destruct (Qlt_le_dec a b). Qed.

Lemma max_squared_edge_length_below (bound : Q) (v0 v1 v2 : Point_3) :
  within bound 0 v0 v1 v2 -> max_squared_edge_length v0 v1 v2 < bound.
Proof.
  intros H. apply (proj1 (within_first_level bound v0 v1 v2)) in H as (H1 & H2 & H3).
  unfold max_squared_edge_length.
  apply std_max_below; [apply std_max_below|]; assumption.
Qed.

(** A triangle within [n] levels of the edge test is settled by any
    recursion depth above [n]. *)
Lemma recursive_hausdorff_subdivision_returns (bound : Q) (n : nat) :
  forall v0 v1 v2 fuel,
    within bound n v0 v1 v2 ->
    (n < fuel)%nat ->
    exists r, recursive_hausdorff_subdivision closest_point fuel v0 v1 v2 bound = Some r.
Proof.
  induction n as [|n IH]; intros v0 v1 v2 fuel Hw Hfuel;
    (destruct fuel as [|fuel]; [lia|]); cbn [recursive_hausdorff_subdivision].
  - destruct (Qlt_le_dec _ _) as [_|Hge]; [eauto|].
    apply max_squared_edge_length_below in Hw.
    exfalso. apply (Qlt_irrefl bound). eapply Qle_lt_trans; eauto.
  - destruct (Qlt_le_dec _ _) as [_|_]; [eauto|].
    pose proof (within_sub_triangles bound n v0 v1 v2 Hw) as Hsub.
    unfold sub_triangles in Hsub.
    repeat match goal with
           | H : Forall _ (_ :: _) |- _ => inversion H; subst; clear H
           end.
    cbn [vertex0 vertex1 vertex2] in *.
    repeat match goal with
           | H : within bound n ?a ?b ?c |- _ =>
               destruct (IH a b c fuel H ltac:(lia)) as [? ->]; clear H
           end.
    eauto.
Qed.

Lemma recursive_hausdorff_subdivision_more_fuel (bound : Q) (n : nat) :
  forall v0 v1 v2,
    within bound n v0 v1 v2 ->
    forall fuel, (n < fuel)%nat ->
                 recursive_hausdorff_subdivision closest_point fuel v0 v1 v2 bound <> None.
Proof.
  intros v0 v1 v2 Hw fuel Hfuel.
  destruct (recursive_hausdorff_subdivision_returns bound n v0 v1 v2 fuel Hw Hfuel)
    as [r ->].
  discriminate.
Qed.

(** The validator as a whole returns once the depth budget covers every
    triangle of the first mesh. *)
Lemma bounded_error_Hausdorff_naive_impl_returns (tm1 : list Triangle_3) (error_bound : Q) :
  0 < error_bound ->
  exists n, forall fuel, (n < fuel)%nat ->
                         bounded_error_Hausdorff_naive_impl
                           closest_point approximate_sqrt fuel tm1 error_bound <> None.
Proof.
  intros Hpos. pose proof (error_bound_squared_pos _ Hpos) as Hsq.
  unfold bounded_error_Hausdorff_naive_impl.
  assert (H : exists n, forall fuel, (n < fuel)%nat -> forall a,
                fold_left
                  (fun acc triangle =>
                     match acc with
                     | None => None
                     | Some squared_lower_bound =>
                         match recursive_hausdorff_subdivision
                                 closest_point fuel (vertex0 triangle) (vertex1 triangle)
                                 (vertex2 triangle) (error_bound * error_bound) with
                         | None => None
                         | Some triangle_bound =>
                             Some (if Qlt_le_dec squared_lower_bound triangle_bound
                                   then triangle_bound else squared_lower_bound)
                         end
                     end)
                  tm1 (Some a) <> None).
  { induction tm1 as [|t tm1 [n IH]].
    - exists O. intros fuel _ a. discriminate.
    - destruct (within_some_level _ (vertex0 t) (vertex1 t) (vertex2 t) Hsq) as [m Hm].
      exists (Nat.max n m). intros fuel Hfuel a. cbn [fold_left].
      destruct (recursive_hausdorff_subdivision_returns
                  _ m _ _ _ fuel Hm ltac:(lia)) as [r ->].
      apply IH. lia. }
  destruct H as [n H]. exists n. intros fuel Hfuel.
  specialize (H fuel Hfuel 0).
  destruct (fold_left _ tm1 (Some 0)); [discriminate | now elim H].
Qed.


End NaiveTerminates.

(** ** The priority queue *)

Section Heap.

Import BoundedError.

Lemma extract_top_Forall (P : Candidate_triangle -> Prop) (h : list Candidate_triangle) :
  forall c, Forall P (c :: h) ->
            P (fst (extract_top c h)) /\ Forall P (snd (extract_top c h)).
Proof.
  induction h as [|c' h IH]; intros c Hall; cbn [extract_top].
  - inversion Hall; subst. now split.
  - inversion Hall as [|? ? Hc Hrest]; subst.
    destruct (IH c' Hrest) as [Hm Hr].
    destruct (extract_top c' h) as [m rest]. cbn [fst snd] in *.
    destruct (Qlt_le_dec _ _); cbn [fst snd]; split; auto.
Qed.

(** [top()] has the largest upper bound of the heap. *)
Lemma extract_top_largest (h : list Candidate_triangle) :
  forall c,
    Forall (fun c' => snd (m_bounds c') <= snd (m_bounds (fst (extract_top c h))))
           (c :: h).
Proof.
  induction h as [|c' h IH]; intros c; cbn [extract_top].
  - constructor; [apply Qle_refl | constructor].
  - specialize (IH c'). destruct (extract_top c' h) as [m rest]. cbn [fst] in IH.
    destruct (Qlt_le_dec _ _) as [Hlt|Hge]; cbn [fst].
    + constructor; [now apply Qlt_le_weak | exact IH].
    + constructor; [apply Qle_refl|].
      eapply Forall_impl; [|exact IH]. cbn beta. intros a Ha.
      eapply Qle_trans; eauto.
Qed.

Lemma full_subdivision_pos (n : nat) : (1 <= full_subdivision n)%nat.
Proof. destruct n; simpl; lia. Qed.

(** Taking the top out of a heap leaves a budget smaller by the share of
    the top. *)
Lemma extract_top_budget (bound : Q) (h : list Candidate_triangle) :
  forall c k,
    budget bound (c :: h) k ->
    exists n k',
      within bound n (vertex0 (m_triangle (fst (extract_top c h))))
             (vertex1 (m_triangle (fst (extract_top c h))))
             (vertex2 (m_triangle (fst (extract_top c h))))
      /\ budget bound (snd (extract_top c h)) k'
      /\ k = (full_subdivision n + k')%nat.
Proof.
  induction h as [|c' h IH]; intros c k Hb; cbn [extract_top].
  - inversion Hb as [|? ? n k0 Hw Hrest]; subst. exists n, k0.
    split; [exact Hw | split; [exact Hrest | reflexivity]].
  - inversion Hb as [|? ? n k0 Hw Hrest]; subst.
    destruct (IH c' k0 Hrest) as (n' & k' & Hw' & Hb' & ->).
    destruct (extract_top c' h) as [m rest]. cbn [fst snd] in *.
    destruct (Qlt_le_dec _ _); cbn [fst snd].
    + exists n', (full_subdivision n + k')%nat.
      split; [exact Hw' | split; [now constructor | lia]].
    + exists n, (full_subdivision n' + k')%nat.
      split; [exact Hw | split; [exact Hrest | reflexivity]].
Qed.

Lemma budget_exists (bound : Q) (h : list Candidate_triangle) :
  0 < bound -> exists k, budget bound h k.
Proof.
  intros Hb. induction h as [|c h [k IH]].
  - exists O. constructor.
  - destruct (within_some_level bound (vertex0 (m_triangle c)) (vertex1 (m_triangle c))
                                (vertex2 (m_triangle c)) Hb) as [n Hn].
    exists (full_subdivision n + k)%nat. now constructor.
Qed.

End Heap.

(** ** The main loop of the engine *)

Section EngineFacts.

Import BoundedError.

Variable local_bounds : Triangle_3 -> Hausdorff_bounds -> Hausdorff_bounds.
Variable closest_primitive : Point_3 -> nat.
Variable error_bound : Q.

Local Abbreviation iteration := (iteration local_bounds closest_primitive error_bound).
Local Abbreviation main_loop := (main_loop local_bounds closest_primitive error_bound).
Local Abbreviation sq_bound := (squared_error_bound error_bound).

Lemma Qltb_true (a b : Q) : Qltb a b = true <-> a < b.
Proof.
  unfold Qltb. destruct (Qlt_le_dec a b) as [H|H]; split; auto; try discriminate.
  intros H'. exfalso. apply (Qlt_irrefl a). eapply Qlt_le_trans; eauto.
Qed.

Lemma Qgtb_true (a b : Q) : Qgtb a b = true <-> b < a.
Proof. apply Qltb_true. Qed.

Lemma Qgtb_false (a b : Q) : Qgtb a b = false <-> a <= b.
Proof.
  unfold Qgtb. destruct (Qlt_le_dec b a) as [H|H]; split; auto; try discriminate.
  intros H'. exfalso. apply (Qlt_irrefl b). eapply Qlt_le_trans; eauto.
Qed.

Lemma loop_condition_nonempty (st : Search) :
  loop_condition error_bound st = true -> candidate_triangles st <> [].
Proof.
  unfold loop_condition. intros H E. rewrite E in H.
  apply andb_prop in H as [_ H]. discriminate.
Qed.

(** The heap after the four sub-triangles were processed. *)
Lemma process_sub_triangles_heap (tb : Hausdorff_bounds) (v0 v1 v2 : Point_3)
      (st : Search) :
  candidate_triangles
    (fold_left (process_sub_triangle local_bounds tb) (sub_triangles v0 v1 v2) st)
  = rev (map (fun sub => mkCandidate sub (local_bounds sub tb)) (sub_triangles v0 v1 v2))
        ++ candidate_triangles st.
Proof. reflexivity. Qed.

(** Every iteration on a non-empty heap uses up some of the budget. *)
Lemma iteration_budget (st : Search) (k : nat) :
  candidate_triangles st <> [] ->
  budget sq_bound (candidate_triangles st) k ->
  exists k', budget sq_bound (candidate_triangles (iteration st)) k' /\ (k' < k)%nat.
Proof.
  intros Hne Hb. unfold BoundedError.iteration.
  destruct (candidate_triangles st) as [|c h] eqn:Eh; [now elim Hne|].
  cbn [top pop].
  destruct (extract_top_budget sq_bound h c k Hb) as (n & k' & Hw & Hrest & ->).
  pose proof (full_subdivision_pos n) as Hn.
  destruct (extract_top c h) as [m rest]. cbn [fst snd] in *.
  assert (Hdrop : exists k'', budget sq_bound rest k''
                              /\ (k'' < full_subdivision n + k')%nat)
    by (exists k'; split; [exact Hrest | lia]).
  destruct (_ && _); cbn [candidate_triangles]; [|exact Hdrop].
  destruct (_ && _); cbn [candidate_triangles]; [exact Hdrop|].
  destruct (_ && _) eqn:Eedges; cbn [candidate_triangles]; [exact Hdrop|].
  (* the edge test failed: the triangle is at least one level away *)
  destruct n as [|n].
  { exfalso. apply (proj1 (within_first_level _ _ _ _)) in Hw as (H1 & H2 & H3).
    apply Qltb_true in H1, H2, H3.
    unfold sq_bound in *. rewrite H1, H2, H3 in Eedges. discriminate. }
  pose proof (within_sub_triangles _ _ _ _ _ Hw) as Hsub.
  match goal with
  | |- context [fold_left ?f ?l ?s] =>
      assert (Hheap : candidate_triangles (fold_left f l s)
                      = rev (map (fun sub => mkCandidate sub
                                               (local_bounds sub (m_bounds m))) l)
                            ++ rest) by reflexivity;
      set (st' := fold_left f l s) in *
  end.
  assert (Hb' : budget sq_bound (candidate_triangles st')
                       (4 * full_subdivision n + k')).
  { rewrite Hheap. unfold sub_triangles in *. cbn [map rev app].
    repeat match goal with
           | H : Forall _ (_ :: _) |- _ => inversion H; subst; clear H
           end.
    replace (4 * full_subdivision n + k')%nat
      with (full_subdivision n
            + (full_subdivision n + (full_subdivision n + (full_subdivision n + k'))))%nat
      by lia.
    repeat (constructor; [assumption|]). exact Hrest. }
  exists (4 * full_subdivision n + k')%nat. split; [|cbn [full_subdivision]; lia].
  destruct (top (candidate_triangles st')); exact Hb'.
Qed.

Lemma main_loop_returns (fuel : nat) :
  forall st k,
    budget sq_bound (candidate_triangles st) k ->
    (k <= fuel)%nat ->
    exists final, main_loop fuel st = Some final
                  /\ loop_condition error_bound final = false.
Proof.
  induction fuel as [|fuel IH]; intros st k Hb Hk; cbn [BoundedError.main_loop];
    destruct (loop_condition error_bound st) eqn:Ec; eauto.
  - apply loop_condition_nonempty in Ec.
    destruct (iteration_budget st k Ec Hb) as (k' & _ & Hlt). lia.
  - apply loop_condition_nonempty in Ec.
    destruct (iteration_budget st k Ec Hb) as (k' & Hb' & Hlt).
    apply (IH _ k' Hb'). lia.
Qed.

Lemma main_loop_more_fuel (fuel : nat) :
  forall st final fuel',
    main_loop fuel st = Some final -> (fuel <= fuel')%nat ->
    main_loop fuel' st = Some final.
Proof.
  induction fuel as [|fuel IH]; intros st final fuel' H Hle;
    destruct fuel' as [|fuel']; cbn [BoundedError.main_loop] in *;
    destruct (loop_condition error_bound st); try discriminate; try lia; auto.
  apply (IH _ _ _ H). lia.
Qed.


End EngineFacts.

(** ** The global bounds along the loop *)

Section GlobalBounds.

Import BoundedError.

Variable local_bounds : Triangle_3 -> Hausdorff_bounds -> Hausdorff_bounds.
Variable closest_primitive : Point_3 -> nat.
Variable error_bound : Q.

(** The bounds of a sub-triangle are ordered, and its upper bound does
    not exceed the one of its parent (the specification's invariant of
    candidate triangles: "lower <= upper, and both bounds only tighten as
    subdivision proceeds"). *)
Hypothesis local_bounds_tighten :
  forall sub parent,
    fst (local_bounds sub parent) <= snd (local_bounds sub parent)
    /\ snd (local_bounds sub parent) <= snd parent.

Local Abbreviation iteration := (iteration local_bounds closest_primitive error_bound).

Lemma std_max_ge_l (a b : Q) : a <= std_max a b.
Proof. rewrite std_max_Qmax. apply Q.le_max_l. Qed.

Lemma std_max_ge_r (a b : Q) : b <= std_max a b.
Proof. rewrite std_max_Qmax. apply Q.le_max_r. Qed.

Lemma std_max_le (a b c : Q) : a <= c -> b <= c -> std_max a b <= c.
Proof. intros Ha Hb. rewrite std_max_Qmax. now apply Q.max_lub. Qed.

(** Processing sub-triangles of a parent below the global upper bound
    [U] keeps the heap below [U], moves the lower bound up but not above
    [U], and leaves the upper bound alone. *)
Lemma process_sub_triangles_bounds (tb : Hausdorff_bounds) (U : Q)
      (subs : list Triangle_3) :
  snd tb <= U ->
  forall st,
    Forall (fun c => snd (m_bounds c) <= U) (candidate_triangles st) ->
    fst (global_bounds st) <= U ->
    snd (global_bounds st) = U ->
    let st' := fold_left (process_sub_triangle local_bounds tb) subs st in
    Forall (fun c => snd (m_bounds c) <= U) (candidate_triangles st')
    /\ fst (global_bounds st) <= fst (global_bounds st')
    /\ fst (global_bounds st') <= U
    /\ snd (global_bounds st') = U.
Proof.
  intros Htb. induction subs as [|sub subs IH]; intros st Hall Hlo Hup; cbn [fold_left].
  - repeat split; [exact Hall | apply Qle_refl | exact Hlo | exact Hup].
  - destruct (local_bounds_tighten sub tb) as [Hord Hpar].
    set (st1 := process_sub_triangle local_bounds tb st sub).
    assert (H1 : Forall (fun c => snd (m_bounds c) <= U) (candidate_triangles st1)).
    { unfold st1, process_sub_triangle, push. cbn [candidate_triangles].
      constructor; [|exact Hall]. cbn [m_bounds]. eapply Qle_trans; eauto. }
    assert (H2 : fst (global_bounds st) <= fst (global_bounds st1)
                 /\ fst (global_bounds st1) <= U).
    { unfold st1, process_sub_triangle. cbn [global_bounds fst].
      unfold Qgtb. destruct (Qlt_le_dec _ _) as [Hlt|Hge].
      - split; [now apply Qlt_le_weak|].
        eapply Qle_trans; [exact Hord|]. eapply Qle_trans; eauto.
      - split; [apply Qle_refl | exact Hlo]. }
    assert (H3 : snd (global_bounds st1) = U) by exact Hup.
    destruct (IH st1 H1 (proj2 H2) H3) as (A & B & C & D).
    repeat split; [exact A | | exact C | exact D].
    eapply Qle_trans; [exact (proj1 H2) | exact B].
Qed.

(** One iteration on a non-empty heap. *)
Lemma iteration_bounds (st : Search) :
  bracketed st ->
  candidate_triangles st <> [] ->
  bracketed (iteration st)
  /\ fst (global_bounds st) <= fst (global_bounds (iteration st))
  /\ snd (global_bounds (iteration st)) <= snd (global_bounds st).
Proof.
  intros [Hall Hord] Hne. unfold BoundedError.iteration.
  destruct (candidate_triangles st) as [|c h] eqn:Eh; [now elim Hne|].
  cbn [top pop].
  destruct (extract_top_Forall _ h c Hall) as [Hm Hrest].
  destruct (extract_top c h) as [m rest]. cbn [fst snd] in Hm, Hrest. cbn [fst snd].
  assert (Hkeep : bracketed (mkSearch rest (global_bounds st))
                  /\ fst (global_bounds st) <= fst (global_bounds st)
                  /\ snd (global_bounds st) <= snd (global_bounds st)).
  { repeat split; try apply Qle_refl; assumption. }
  destruct (Qgtb (snd (m_bounds m)) (fst (global_bounds st))) eqn:Eup;
    cbn [andb]; [|exact Hkeep].
  apply Qgtb_true in Eup.
  assert (Hpromote : bracketed (mkSearch rest (snd (m_bounds m), snd (global_bounds st)))
                     /\ fst (global_bounds st) <= snd (m_bounds m)
                     /\ snd (global_bounds st) <= snd (global_bounds st)).
  { repeat split; cbn [global_bounds candidate_triangles fst snd];
      try apply Qle_refl; try assumption. now apply Qlt_le_weak. }
  destruct (Qgtb _ error_bound); [|exact Hkeep].
  destruct (_ && _); [exact Hpromote|].
  destruct (_ && _); [exact Hpromote|].
  match goal with
  | |- context [fold_left ?f ?l ?s] =>
      pose proof (process_sub_triangles_bounds (m_bounds m) (snd (global_bounds st)) l
                    Hm s Hrest Hord eq_refl) as Hfold;
      assert (Hheap : candidate_triangles (fold_left f l s)
                      = rev (map (fun sub => mkCandidate sub
                                               (local_bounds sub (m_bounds m))) l)
                            ++ rest) by reflexivity;
      set (st' := fold_left f l s) in *
  end.
  cbv zeta in Hfold. cbn [global_bounds candidate_triangles] in Hfold.
  destruct Hfold as (A & B & C & D).
  destruct (candidate_triangles st') as [|c' h'] eqn:Eh'.
  { unfold sub_triangles in Hheap. cbn in Hheap. discriminate. }
  cbn [top].
  pose proof (extract_top_largest h' c') as Hlargest.
  destruct (extract_top_Forall _ h' c' A) as [Ht _].
  set (t := fst (extract_top c' h')) in *.
  cbn [global_bounds candidate_triangles fst snd].
  repeat split.
  - cbn [candidate_triangles global_bounds snd].
    eapply Forall_impl; [|exact Hlargest]. cbn beta. intros a Ha.
    eapply Qle_trans; [exact Ha | apply std_max_ge_l].
  - cbn [global_bounds fst snd]. apply std_max_ge_r.
  - exact B.
  - now apply std_max_le.
Qed.

(** The loop keeps its states bracketed, the lower bound at or above the
    seeded one and the upper bound at or below it. *)
Lemma reached_bounds (seeded st : Search) :
  bracketed seeded ->
  reached local_bounds closest_primitive error_bound seeded st ->
  bracketed st
  /\ fst (global_bounds seeded) <= fst (global_bounds st)
  /\ snd (global_bounds st) <= snd (global_bounds seeded).
Proof.
  intros Hseed Hreach. induction Hreach as [|st Hreach IH Hcond].
  - repeat split; try apply Qle_refl; apply Hseed.
  - destruct IH as (Hb & Hlo & Hup).
    destruct (iteration_bounds st Hb (loop_condition_nonempty _ _ Hcond))
      as (Hb' & Hlo' & Hup').
    repeat split; try apply Hb'; eapply Qle_trans; eauto.
Qed.

(** C2.  From a seeded state whose upper bound dominates the candidates
    and the lower bound, every iteration of the main loop leaves the
    global lower bound where it was or raises it, and leaves the global
    upper bound where it was or lowers it; so do all iterations
    together. *)
Theorem global_bounds_monotone (seeded st : Search) :
  bracketed seeded ->
  reached local_bounds closest_primitive error_bound seeded st ->
  (fst (global_bounds seeded) <= fst (global_bounds st)
   /\ snd (global_bounds st) <= snd (global_bounds seeded))
  /\ (loop_condition error_bound st = true ->
      fst (global_bounds st) <= fst (global_bounds (iteration st))
      /\ snd (global_bounds (iteration st)) <= snd (global_bounds st)).
Proof.
  intros Hseed Hreach.
  destruct (reached_bounds seeded st Hseed Hreach) as (Hb & Hlo & Hup).
  split; [now split|].
  intros Hcond.
  now destruct (iteration_bounds st Hb (loop_condition_nonempty _ _ Hcond)) as (_ & ? & ?).
Qed.

End GlobalBounds.

(** ** Grid points and edge division points *)

Section GridGeometry.

Import GridSampling.

Variable approximate_sqrt : Q -> Q.

Lemma inject_Z_pos (n : Z) : (0 < n)%Z -> 0 < inject_Z n.
Proof. intros H. now rewrite <- (Zlt_Qlt 0). Qed.

Lemma inject_Z_nonzero (n : Z) : (0 < n)%Z -> ~ inject_Z n == 0.
Proof.
  intros H E. apply inject_Z_pos in H. rewrite E in H. now apply Qlt_irrefl in H.
Qed.

Lemma ratio_between (i n : Z) :
  (0 < i < n)%Z -> 0 < inject_Z i / inject_Z n /\ inject_Z i / inject_Z n < 1.
Proof.
  intros [Hi Hn].
  assert (Hpos : 0 < inject_Z n) by (apply inject_Z_pos; lia).
  split.
  - apply Qlt_shift_div_l; [exact Hpos|]. rewrite Qmult_0_l. now apply inject_Z_pos.
  - apply Qlt_shift_div_r; [exact Hpos|]. rewrite Qmult_1_l. now rewrite <- Zlt_Qlt.
Qed.

Lemma zrange_steps_nth_error (m : nat) :
  forall lo k, (k < m)%nat ->
               nth_error (zrange_steps m lo) k = Some (lo + Z.of_nat k)%Z.
Proof.
  induction m as [|m IH]; intros lo k Hk; [lia|].
  destruct k as [|k]; cbn [zrange_steps nth_error].
  - f_equal. lia.
  - rewrite IH by lia. f_equal. lia.
Qed.

(** The weights of a lattice point of the double loop. *)
Lemma grid_point_weights (n i j : Z) :
  (1 <= i)%Z -> (1 <= j < n - i)%Z ->
  let c0 := 1 - (inject_Z i + inject_Z j) / inject_Z n in
  let c1 := inject_Z i / inject_Z n in
  let c2 := inject_Z j / inject_Z n in
  0 < c0 /\ 0 < c1 /\ 0 < c2 /\ c0 + c1 + c2 == 1.
Proof.
  intros Hi Hj c0 c1 c2.
  destruct (ratio_between i n ltac:(lia)) as [H1 _].
  destruct (ratio_between j n ltac:(lia)) as [H2 _].
  destruct (ratio_between (i + j) n ltac:(lia)) as [_ H3].
  rewrite inject_Z_plus in H3.
  repeat split; try assumption.
  - unfold c0. lra.
  - unfold c0, c1, c2. field. apply inject_Z_nonzero. lia.
Qed.

(** Every point [triangle_grid_sampling] writes is a combination of the
    three vertices with positive weights of sum one: it lies strictly
    inside the triangle, for any spacing. *)
Theorem triangle_grid_sampling_strictly_inside (p0 p1 p2 : Point_3) (distance : Q) :
  Forall
    (fun p =>
       exists c0 c1 c2 : Q,
         0 < c0 /\ 0 < c1 /\ 0 < c2 /\ c0 + c1 + c2 == 1
         /\ p = mkPoint (x p0 * c0 + x p1 * c1 + x p2 * c2)
                        (y p0 * c0 + y p1 * c1 + y p2 * c2)
                        (z p0 * c0 + z p1 * c1 + z p2 * c2))
    (triangle_grid_sampling approximate_sqrt p0 p1 p2 distance []).
Proof.
  rewrite triangle_grid_sampling_unfold. cbn [app].
  apply Forall_forall. intros p Hp.
  apply interior_lattice_In in Hp as (i & j & Hi & Hj & ->).
  set (n := grid_rows approximate_sqrt p0 p1 p2 distance) in *.
  destruct (grid_point_weights n i j Hi Hj) as (H0 & H1 & H2 & Hs).
  exists (1 - (inject_Z i + inject_Z j) / inject_Z n),
    (inject_Z i / inject_Z n), (inject_Z j / inject_Z n).
  exact (conj H0 (conj H1 (conj H2 (conj Hs eq_refl)))).
Qed.

Variable pmap : nat -> Point_3.

(** The edge loop of [sample_triangles] divides the edge into
    [nb_pts = ceil(|p0p1| / distance)] equal parts and writes the
    [nb_pts - 1] division points between the endpoints, in order from the
    source; nothing for [nb_pts <= 1]. *)
Theorem sample_edge_points_divide (distance : Q) (hd : MeshSampler.halfedge_descriptor)
        (o : list Point_3) :
  let p0 := pmap (MeshSampler.source hd) in
  let p1 := pmap (MeshSampler.target hd) in
  let nb_pts := Qceiling (approximate_sqrt (squared_distance p0 p1) / distance) in
  exists pts,
    MeshSampler.sample_edge_points approximate_sqrt pmap distance hd o = o ++ pts
    /\ length pts = Z.to_nat (nb_pts - 1)
    /\ forall k, (k < length pts)%nat ->
                 exists p, nth_error pts k = Some p
                           /\ let t := inject_Z (Z.of_nat k + 1) / inject_Z nb_pts in
                              0 < t /\ t < 1
                              /\ point_eq p (mkPoint (x p0 + t * (x p1 - x p0))
                                                     (y p0 + t * (y p1 - y p0))
                                                     (z p0 + t * (z p1 - z p0))).
Proof.
  intros p0 p1 nb_pts.
  unfold MeshSampler.sample_edge_points. fold p0 p1 nb_pts. unfold for_loop.
  rewrite for_steps_append.
  eexists. split; [reflexivity|].
  rewrite length_map, zrange_steps_length. split; [reflexivity|].
  intros k Hk. rewrite ?length_map, ?zrange_steps_length in Hk.
  rewrite nth_error_map, (zrange_steps_nth_error _ _ _ Hk). cbn [option_map].
  replace (1 + Z.of_nat k)%Z with (Z.of_nat k + 1)%Z by lia.
  eexists. split; [reflexivity|].
  cbv zeta.
  destruct (ratio_between (Z.of_nat k + 1) nb_pts ltac:(lia)) as [Ht0 Ht1].
  split; [exact Ht0|]. split; [exact Ht1|].
  assert (Hn : ~ inject_Z nb_pts == 0) by (apply inject_Z_nonzero; lia).
  unfold point_eq, translated_point, scaled_vector, vector. cbn [x y z].
  repeat split; field; exact Hn.
Qed.

End GridGeometry.

(** ** Edges shared by two faces *)

Section SharedEdges.

Import MeshSampler.

Variable approximate_sqrt : Q -> Q.
Variable pmap : nat -> Point_3.

Lemma edge_opposite (a b : nat) : edge (a, b) = edge (b, a).
Proof. unfold edge, source, target. cbn [fst snd]. f_equal; lia. Qed.

Lemma edge_eqb_refl (e : nat * nat) : edge_eqb e e = true.
Proof. unfold edge_eqb. now rewrite !Nat.eqb_refl. Qed.

Lemma sample_halfedge_marks (distance : Q) (st : Sampling) (hd : halfedge_descriptor) :
  existsb (edge_eqb (edge hd))
          (sampled_edges (sample_halfedge approximate_sqrt pmap distance true false st hd))
  = true.
Proof.
  unfold sample_halfedge. cbn [andb].
  destruct (existsb (edge_eqb (edge hd)) (sampled_edges st)) eqn:E; cbn [negb].
  - exact E.
  - cbn [sampled_edges existsb]. now rewrite edge_eqb_refl.
Qed.

(** Once a halfedge was handled by the edge loop of [sample_triangles],
    the same halfedge and the opposite one (the edge seen from the
    neighbouring face) write nothing more: an edge is sampled once. *)
Theorem shared_edge_sampled_once (distance : Q) (st : Sampling) (a b : nat) :
  let st1 := sample_halfedge approximate_sqrt pmap distance true false st (a, b) in
  sample_halfedge approximate_sqrt pmap distance true false st1 (b, a) = st1
  /\ sample_halfedge approximate_sqrt pmap distance true false st1 (a, b) = st1.
Proof.
  intros st1.
  pose proof (sample_halfedge_marks distance st (a, b)) as Hmark. fold st1 in Hmark.
  split; unfold sample_halfedge at 1; cbn [andb].
  - rewrite (edge_opposite b a), Hmark. reflexivity.
  - rewrite Hmark. reflexivity.
Qed.

End SharedEdges.

(** ** The cached shortest edge *)

Section CachedMinimum.

Import Sampler.

Lemma min_edge_step_le (s : Sampler_state) (q : Q) :
  min_sq_edge_length (min_edge_step s q) <= min_sq_edge_length s
  /\ (0 < q -> min_sq_edge_length (min_edge_step s q) <= q).
Proof.
  unfold min_edge_step.
  destruct (Qlt_le_dec 0 q) as [Hq|Hq];
    [destruct (Qlt_le_dec q (min_sq_edge_length s)) as [Hlt|Hge]|];
    cbn [min_sq_edge_length]; split; intros;
    try apply Qle_refl; try assumption; try (now apply Qlt_le_weak).
  exfalso. apply (Qlt_irrefl 0). eapply Qlt_le_trans; eauto.
Qed.

Lemma fold_min_edge_step_out (l : list Q) :
  forall s, out (fold_left min_edge_step l s) = out s.
Proof.
  induction l as [|q l IH]; intros s; cbn [fold_left];
    [reflexivity | now rewrite IH, min_edge_step_out].
Qed.

Lemma fold_min_edge_step_le (l : list Q) :
  forall s, min_sq_edge_length (fold_left min_edge_step l s) <= min_sq_edge_length s.
Proof.
  induction l as [|q l IH]; intros s; cbn [fold_left]; [apply Qle_refl|].
  eapply Qle_trans; [apply IH | apply min_edge_step_le].
Qed.

Lemma fold_min_edge_step_below (l : list Q) :
  forall s q, In q l -> 0 < q -> min_sq_edge_length (fold_left min_edge_step l s) <= q.
Proof.
  induction l as [|q0 l IH]; intros s q Hin Hq; [elim Hin|].
  cbn [fold_left]. destruct Hin as [->|Hin].
  - eapply Qle_trans; [apply fold_min_edge_step_le | now apply min_edge_step_le].
  - now apply IH.
Qed.

(** The loop leaves the state alone when no squared length is both
    positive and below the member. *)
Lemma fold_min_edge_step_fixed (l : list Q) (s : Sampler_state) :
  (forall q, In q l -> 0 < q -> min_sq_edge_length s <= q) ->
  fold_left min_edge_step l s = s.
Proof.
  induction l as [|q l IH]; intros H; cbn [fold_left]; [reflexivity|].
  assert (E : min_edge_step s q = s).
  { unfold min_edge_step.
    destruct (Qlt_le_dec 0 q) as [Hq|Hq]; [|reflexivity].
    destruct (Qlt_le_dec q (min_sq_edge_length s)) as [Hlt|Hge]; [|reflexivity].
    exfalso. apply (Qlt_irrefl q). eapply Qlt_le_trans; [exact Hlt|].
    apply H; [now left | exact Hq]. }
  rewrite E. apply IH. intros q' Hin. apply H. now right.
Qed.

Lemma fold_min_edge_step_twice (l : list Q) (s : Sampler_state) :
  fold_left min_edge_step l (fold_left min_edge_step l s) = fold_left min_edge_step l s.
Proof. apply fold_min_edge_step_fixed. intros q. apply fold_min_edge_step_below. Qed.

Variable tm : MeshSampler.Triangle_mesh.
Variable pmap : nat -> Point_3.
Variable points : list Point_3.
Variable triangles : list SoupSampler.TriangleType.

Lemma mesh_get_minimum_edge_length_scan (s : Sampler_state) :
  MeshSampler.get_minimum_edge_length tm pmap s
  = if negb (Qeq_bool (min_sq_edge_length s) DBL_MAX) then (min_sq_edge_length s, s)
    else (min_sq_edge_length
            (fold_left min_edge_step (MeshSampler.squared_edge_lengths tm pmap) s),
          fold_left min_edge_step (MeshSampler.squared_edge_lengths tm pmap) s).
Proof.
  unfold MeshSampler.get_minimum_edge_length, MeshSampler.squared_edge_lengths.
  destruct (negb _); [reflexivity|]. now rewrite fold_left_map_step.
Qed.

Lemma soup_get_minimum_edge_length_scan (s : Sampler_state) :
  SoupSampler.get_minimum_edge_length points triangles s
  = if negb (Qeq_bool (min_sq_edge_length s) DBL_MAX) then (min_sq_edge_length s, s)
    else (min_sq_edge_length
            (fold_left min_edge_step
                       (SoupSampler.squared_edge_lengths points triangles) s),
          fold_left min_edge_step (SoupSampler.squared_edge_lengths points triangles) s).
Proof.
  unfold SoupSampler.get_minimum_edge_length.
  destruct (negb _); [reflexivity|]. now rewrite soup_fold_triangles.
Qed.

Lemma scan_again (l : list Q) (s : Sampler_state) :
  let scan := fun s =>
                if negb (Qeq_bool (min_sq_edge_length s) DBL_MAX)
                then (min_sq_edge_length s, s)
                else (min_sq_edge_length (fold_left min_edge_step l s),
                      fold_left min_edge_step l s) in
  scan (snd (scan s)) = scan s.
Proof.
  cbv beta zeta.
  destruct (negb (Qeq_bool (min_sq_edge_length s) DBL_MAX)) eqn:E; cbn [snd].
  - now rewrite E.
  - clear E.
    destruct (negb (Qeq_bool (min_sq_edge_length (fold_left min_edge_step l s)) DBL_MAX));
      [reflexivity|].
    now rewrite fold_min_edge_step_twice.
Qed.

(** [get_minimum_edge_length] is memoised soundly, on the mesh and on the
    soup: a second call returns the value of the first and leaves the
    sampler as the first call left it, whether the cached value is reused
    or the edges are scanned again. *)
Theorem get_minimum_edge_length_again (s : Sampler_state) :
  (let r := MeshSampler.get_minimum_edge_length tm pmap s in
   MeshSampler.get_minimum_edge_length tm pmap (snd r) = r)
  /\ (let r := SoupSampler.get_minimum_edge_length points triangles s in
      SoupSampler.get_minimum_edge_length points triangles (snd r) = r).
Proof.
  split; cbv zeta.
  - rewrite !mesh_get_minimum_edge_length_scan. apply scan_again.
  - rewrite !soup_get_minimum_edge_length_scan. apply scan_again.
Qed.

(** When no edge has a positive squared length (all edges degenerate, or
    no edge at all), the search on a fresh sampler returns the initial
    value [DBL_MAX] of the member: this is then the default grid spacing
    and the divisor of the density defaults. *)
Theorem get_minimum_edge_length_all_degenerate (o : list Point_3) :
  (forall q, In q (MeshSampler.squared_edge_lengths tm pmap) -> q <= 0) ->
  MeshSampler.get_minimum_edge_length tm pmap (constructed o) = (DBL_MAX, constructed o)
  /\ forall np approximate_sqrt sqrt face_area segment in_mesh on_edges,
      grid_spacing np = None ->
      procede_grid_spacing
        (MeshSampler.sampler_for_triangle_mesh approximate_sqrt sqrt face_area segment
                                               tm pmap in_mesh on_edges np)
        np (constructed o)
      = (DBL_MAX, constructed o).
Proof.
  intros Hdeg.
  assert (E : MeshSampler.get_minimum_edge_length tm pmap (constructed o)
              = (DBL_MAX, constructed o)).
  { rewrite mesh_get_minimum_edge_length_fresh. cbv zeta.
    rewrite fold_min_edge_step_fixed; [reflexivity|].
    intros q Hin Hq. exfalso. apply (Qlt_irrefl 0).
    eapply Qlt_le_trans; [exact Hq | now apply Hdeg]. }
  split; [exact E|].
  intros np approximate_sqrt sqrt face_area segment in_mesh on_edges Hnp.
  unfold procede_grid_spacing. rewrite Hnp. cbn. exact E.
Qed.

End CachedMinimum.

(** ** The sampling strategies of [procede] *)

Section Strategies.

Import Sampler.

Context {Tr : Type} (D : Derived Tr).
Variable Random_points_in_triangle_3 : Point_3 -> Point_3 -> Point_3 -> Generator.

Lemma copy_n_length (g : Generator) (n : Z) (s : Sampler_state) :
  length (out (copy_n g n s)) = (length (out s) + Z.to_nat n)%nat.
Proof.
  unfold copy_n, write. cbn [out]. now rewrite length_app, length_map, length_seq.
Qed.

Lemma std_max_Z_ge_r (a b : Z) : (b <= std_max_Z a b)%Z.
Proof. unfold std_max_Z. destruct (Z_lt_dec a b); lia. Qed.

Lemma ms_face_nb_points_positive (nbf : Z) (a_u : Q) (tr : Tr) :
  (0 <= nbf)%Z -> (1 <= ms_face_nb_points D nbf a_u tr)%Z.
Proof.
  intros H. unfold ms_face_nb_points.
  destruct (nbf =? 0)%Z eqn:E; [apply std_max_Z_ge_r|].
  apply Z.eqb_neq in E. lia.
Qed.

(** The face loop of the Monte-Carlo branch draws at least one point in
    every face, whatever its area and the density (zero-area faces
    included); with an explicit [number_of_points_per_face] it draws that
    many in each face. *)
Theorem monte_carlo_every_face_sampled (nbf : Z) (a_u : Q) (s : Sampler_state) :
  (0 <= nbf)%Z ->
  let s' := fold_left (ms_sample_face D Random_points_in_triangle_3 nbf a_u)
                      (get_range D) s in
  (length (out s) + length (get_range D) <= length (out s'))%nat
  /\ ((0 < nbf)%Z ->
      length (out s') = (length (out s) + Z.to_nat nbf * length (get_range D))%nat).
Proof.
  intros Hnbf. cbv zeta. generalize (get_range D) as l. intros l. revert s.
  induction l as [|tr l IH]; intros s; cbn [fold_left length].
  - split; [lia | intros _; lia].
  - destruct (IH (ms_sample_face D Random_points_in_triangle_3 nbf a_u s tr)) as [H1 H2].
    assert (Hlen : length (out (ms_sample_face D Random_points_in_triangle_3 nbf a_u s tr))
                   = (length (out s) + Z.to_nat (ms_face_nb_points D nbf a_u tr))%nat).
    { unfold ms_sample_face. destruct (get_tr_points D tr) as [[q0 q1] q2].
      apply copy_n_length. }
    pose proof (ms_face_nb_points_positive nbf a_u tr Hnbf) as Hpos.
    split.
    + lia.
    + intros Hgt. rewrite (H2 Hgt), Hlen.
      unfold ms_face_nb_points. destruct (nbf =? 0)%Z eqn:E; [apply Z.eqb_eq in E; lia|].
      lia.
Qed.

(** Requesting grid or Monte-Carlo sampling without saying anything about
    [random_uniform_sampling] switches the uniform random strategy off:
    the run is the one with [random_uniform_sampling(false)]. *)
Theorem random_uniform_off_by_request
        (gs ms v e f : option bool) (a l g : option Q) (pf pe fo eo : option Z)
        (s : Sampler_state) :
  gs = Some true \/ ms = Some true ->
  procede D Random_points_in_triangle_3
          (mkParameters None gs ms v e f a l g pf pe fo eo) s
  = procede D Random_points_in_triangle_3
            (mkParameters (Some false) gs ms v e f a l g pf pe fo eo) s.
Proof.
  intros H. unfold procede.
  cbn [random_uniform_sampling grid_sampling monte_carlo_sampling do_sample_vertices
       do_sample_edges do_sample_faces nb_points_per_area_unit
       nb_points_per_distance_unit is_default_parameter choose_parameter].
  destruct H as [-> | ->]; cbn [choose_parameter orb andb].
  - reflexivity.
  - rewrite Bool.orb_true_r. cbn [andb]. destruct (choose_parameter gs false); reflexivity.
Qed.

(** With no parameter passed, only the uniform random strategy runs. *)
Lemma procede_all_default (s : Sampler_state) :
  procede D Random_points_in_triangle_3 all_default s
  = Some (procede_random_uniform D all_default true true 0 0 (sample_points D s)).
Proof. reflexivity. Qed.

End Strategies.

(** ** Points are only appended *)

Section AppendOnly.

Import Sampler.

Definition extends (s s' : Sampler_state) : Prop :=
  exists pts, out s' = out s ++ pts.

Lemma extends_refl (s : Sampler_state) : extends s s.
Proof. exists []. now rewrite app_nil_r. Qed.

Lemma extends_trans (s1 s2 s3 : Sampler_state) :
  extends s1 s2 -> extends s2 s3 -> extends s1 s3.
Proof.
  intros [p1 H1] [p2 H2]. exists (p1 ++ p2). now rewrite H2, H1, app_assoc.
Qed.

Lemma extends_write (s : Sampler_state) (pts : list Point_3) : extends s (write s pts).
Proof. now exists pts. Qed.

Lemma extends_copy_n (g : Generator) (n : Z) (s : Sampler_state) :
  extends s (copy_n g n s).
Proof. apply extends_write. Qed.

Lemma extends_fold {A : Type} (f : Sampler_state -> A -> Sampler_state) (l : list A) :
  (forall s a, extends s (f s a)) ->
  forall s, extends s (fold_left f l s).
Proof.
  intros Hf. induction l as [|a l IH]; intros s; cbn [fold_left].
  - apply extends_refl.
  - eapply extends_trans; [apply Hf | apply IH].
Qed.

Section Base.

Context {Tr : Type} (D : Derived Tr).
Variable Random_points_in_triangle_3 : Point_3 -> Point_3 -> Point_3 -> Generator.

Hypothesis sample_points_extends : forall s, extends s (sample_points D s).
Hypothesis get_minimum_edge_length_extends :
  forall s, extends s (snd (get_minimum_edge_length D s)).
Hypothesis internal_sample_triangles_extends :
  forall g b1 b2 s, extends s (internal_sample_triangles D g b1 b2 s).
Hypothesis ms_edges_sample_extends :
  forall n q s s', ms_edges_sample D n q s = Some s' -> extends s s'.
Hypothesis ru_edges_sample_extends :
  forall q1 q2 s, extends s (ru_edges_sample D q1 q2 s).

Lemma procede_monte_carlo_extends np fcs dgs a_u l_u s s' a_u' :
  procede_monte_carlo D Random_points_in_triangle_3 np fcs dgs a_u l_u s
  = Some (s', a_u') ->
  extends s s'.
Proof.
  unfold procede_monte_carlo.
  set (nbf := choose_parameter (number_of_points_per_face np) 0%Z).
  set (nbe := choose_parameter (number_of_points_per_edge np) 0%Z).
  set (c := _ || _).
  assert (H0 : extends s (snd (if c then get_minimum_edge_length D s else (DBL_MAX, s))))
    by (destruct c; [apply get_minimum_edge_length_extends | apply extends_refl]).
  destruct (if c then get_minimum_edge_length D s else (DBL_MAX, s)) as [m s0].
  cbn [snd] in H0.
  assert (Hfaces : forall a, extends s0 (fold_left (ms_sample_face
                                                      D Random_points_in_triangle_3 nbf a)
                                                   (get_range D) s0)).
  { intros a. apply extends_fold. intros t tr. unfold ms_sample_face.
    destruct (get_tr_points D tr) as [[q0 q1] q2]. apply extends_copy_n. }
  destruct fcs.
  - destruct (ms_default_nb_pts_a_u nbf a_u m) as [a|]; [|discriminate].
    destruct dgs.
    + destruct (ms_edges_sample D nbe l_u _) as [s1|] eqn:E; [|discriminate].
      intros [= <- _].
      eapply extends_trans; [exact H0|].
      eapply extends_trans; [apply Hfaces | eapply ms_edges_sample_extends; eauto].
    + intros [= <- _]. eapply extends_trans; [exact H0 | apply Hfaces].
  - destruct dgs.
    + destruct (ms_edges_sample D nbe l_u s0) as [s1|] eqn:E; [|discriminate].
      intros [= <- _].
      eapply extends_trans; [exact H0 | eapply ms_edges_sample_extends; eauto].
    + intros [= <- _]. exact H0.
Qed.

Lemma procede_random_uniform_extends np fcs dgs a_u l_u s :
  extends s (procede_random_uniform D np fcs dgs a_u l_u s).
Proof.
  unfold procede_random_uniform.
  match goal with
  | |- extends s (if dgs then ru_edges_sample D _ _ ?t else ?t) =>
      assert (H : extends s t)
  end.
  { destruct fcs; [apply extends_copy_n | apply extends_refl]. }
  destruct dgs; [|exact H].
  eapply extends_trans; [exact H | apply ru_edges_sample_extends].
Qed.

Lemma procede_extends np s s' :
  procede D Random_points_in_triangle_3 np s = Some s' -> extends s s'.
Proof.
  unfold procede.
  set (s1 := if choose_parameter (do_sample_vertices np) true
             then sample_points D s else s).
  assert (H1 : extends s s1)
    by (unfold s1; destruct (choose_parameter (do_sample_vertices np) true);
        [apply sample_points_extends | apply extends_refl]).
  match goal with
  | |- match (if ?ms then procede_monte_carlo _ _ _ _ _ _ _ ?s2 else _) with _ => _ end
       = _ -> _ =>
      assert (H2 : extends s1 s2); [|set (t := s2) in *; destruct ms]
  end.
  - destruct (choose_parameter (grid_sampling np) false); [|apply extends_refl].
    unfold procede_grid_spacing.
    destruct (Qeq_bool _ 0).
    + pose proof (get_minimum_edge_length_extends s1) as H.
      destruct (get_minimum_edge_length D s1) as [g s0]. cbn [snd] in H.
      eapply extends_trans; [exact H | apply internal_sample_triangles_extends].
    + apply internal_sample_triangles_extends.
  - destruct (procede_monte_carlo _ _ _ _ _ _ _ t) as [[s3 a]|] eqn:E; [|discriminate].
    apply procede_monte_carlo_extends in E.
    intros [= <-].
    eapply extends_trans; [exact H1|]. eapply extends_trans; [exact H2|].
    eapply extends_trans; [exact E|].
    destruct (if _ && _ then false else _);
      [apply procede_random_uniform_extends | apply extends_refl].
  - intros [= <-].
    eapply extends_trans; [exact H1|]. eapply extends_trans; [exact H2|].
    destruct (if _ && _ then false else _);
      [apply procede_random_uniform_extends | apply extends_refl].
Qed.

End Base.

End AppendOnly.

Section SamplersAppend.

Import Sampler.

Variables approximate_sqrt sqrt : Q -> Q.
Variable face_area : Point_3 -> Point_3 -> Point_3 -> Q.
Variable Random_points_on_segment_3 : Point_3 -> Point_3 -> Generator.
Variable Random_points_in_triangle_3 : Point_3 -> Point_3 -> Point_3 -> Generator.
Variables in_mesh on_edges in_soup : Weighted_generator.

Variable tm : MeshSampler.Triangle_mesh.
Variable pmap : nat -> Point_3.
Variable points : list Point_3.
Variable triangles : list SoupSampler.TriangleType.

Lemma sample_edge_points_app (distance : Q) (hd : MeshSampler.halfedge_descriptor)
      (o : list Point_3) :
  exists pts, MeshSampler.sample_edge_points approximate_sqrt pmap distance hd o = o ++ pts.
Proof.
  unfold MeshSampler.sample_edge_points, for_loop. rewrite for_steps_append. eauto.
Qed.

Lemma sample_halfedge_app (distance : Q) (b1 b2 : bool) (st : MeshSampler.Sampling)
      (hd : MeshSampler.halfedge_descriptor) :
  exists pts,
    MeshSampler.written (MeshSampler.sample_halfedge approximate_sqrt pmap distance
                                                     b1 b2 st hd)
    = MeshSampler.written st ++ pts.
Proof.
  unfold MeshSampler.sample_halfedge.
  destruct (sample_edge_points_app distance hd (MeshSampler.written st)) as [pts E].
  destruct (b1 && _); destruct (b2 && _); cbn [MeshSampler.written].
  - rewrite E, <- app_assoc. eauto.
  - rewrite E. eauto.
  - eauto.
  - exists []. now rewrite app_nil_r.
Qed.

Lemma sample_face_app (distance : Q) (b0 b1 b2 : bool) (st : MeshSampler.Sampling)
      (fd : MeshSampler.face_descriptor) :
  exists pts,
    MeshSampler.written (MeshSampler.sample_face approximate_sqrt pmap distance
                                                 b0 b1 b2 st fd)
    = MeshSampler.written st ++ pts.
Proof.
  unfold MeshSampler.sample_face. destruct fd as [[t0 t1] t2].
  cbn [MeshSampler.halfedges_around fold_left].
  destruct (sample_halfedge_app distance b1 b2 st (t2, t0)) as [p1 E1].
  set (st1 := MeshSampler.sample_halfedge _ _ _ _ _ st (t2, t0)) in *.
  destruct (sample_halfedge_app distance b1 b2 st1 (t0, t1)) as [p2 E2].
  set (st2 := MeshSampler.sample_halfedge _ _ _ _ _ st1 (t0, t1)) in *.
  destruct (sample_halfedge_app distance b1 b2 st2 (t1, t2)) as [p3 E3].
  set (st3 := MeshSampler.sample_halfedge _ _ _ _ _ st2 (t1, t2)) in *.
  destruct b0; cbn [MeshSampler.written].
  - rewrite triangle_grid_sampling_unfold, E3, E2, E1, <- !app_assoc. eauto.
  - rewrite E3, E2, E1, <- !app_assoc. eauto.
Qed.

Lemma sample_triangles_app (faces : list MeshSampler.face_descriptor) (distance : Q)
      (o : list Point_3) (b0 b1 b2 : bool) :
  exists pts,
    MeshSampler.sample_triangles approximate_sqrt pmap faces distance o b0 b1 b2
    = o ++ pts.
Proof.
  unfold MeshSampler.sample_triangles.
  change o with (MeshSampler.written (MeshSampler.mkSampling o [] [])) at 2.
  generalize (MeshSampler.mkSampling o [] []) as st.
  induction faces as [|fd faces IH]; intros st; cbn [fold_left].
  - exists []. now rewrite app_nil_r.
  - destruct (IH (MeshSampler.sample_face approximate_sqrt pmap distance b0 b1 b2 st fd))
      as [p2 E2].
    destruct (sample_face_app distance b0 b1 b2 st fd) as [p1 E1].
    rewrite E2, E1, <- app_assoc. eauto.
Qed.

Lemma soup_internal_sample_triangles_out (d : Q) (b1 b2 : bool) (s : Sampler_state) :
  out (SoupSampler.internal_sample_triangles approximate_sqrt points triangles d b1 b2 s)
  = out s
        ++ flat_map
             (fun tr =>
                let '(p0, p1, p2) := SoupSampler.get_tr_points points tr in
                GridSampling.interior_lattice
                  p0 p1 p2 (GridSampling.grid_rows approximate_sqrt p0 p1 p2 d))
             triangles.
Proof.
  unfold SoupSampler.internal_sample_triangles.
  revert s. induction triangles as [|tr l IH]; intros s; cbn [fold_left flat_map].
  - now rewrite app_nil_r.
  - rewrite IH. unfold SoupSampler.get_tr_points. cbn [out].
    now rewrite triangle_grid_sampling_unfold, app_assoc.
Qed.

Lemma mesh_procede_extends (np np' : Named_parameters) (s s' : Sampler_state) :
  procede (MeshSampler.sampler_for_triangle_mesh approximate_sqrt sqrt face_area
             Random_points_on_segment_3 tm pmap in_mesh on_edges np)
          Random_points_in_triangle_3 np' s = Some s' ->
  extends s s'.
Proof.
  intros E. apply procede_extends in E; [exact E| | | | |]; cbn.
  - intros t. apply extends_write.
  - intros t. unfold MeshSampler.get_minimum_edge_length.
    destruct (negb _); cbn [snd]; [apply extends_refl|].
    rewrite fold_left_map_step.
    exists []. now rewrite app_nil_r, fold_min_edge_step_out.
  - intros g b1 b2 t. unfold MeshSampler.internal_sample_triangles, extends. cbn [out].
    apply sample_triangles_app.
  - intros n q t t'. unfold MeshSampler.ms_edges_sample.
    destruct (MeshSampler.ms_default_nb_pts_l_u sqrt n q t); [|discriminate].
    intros [= <-]. apply extends_fold. intros u ed. apply extends_copy_n.
  - intros q1 q2 t. apply extends_copy_n.
Qed.

Lemma soup_procede_extends (np : Named_parameters) (s s' : Sampler_state) :
  procede (SoupSampler.sampler_for_triangle_soup approximate_sqrt points triangles in_soup)
          Random_points_in_triangle_3 np s = Some s' ->
  extends s s'.
Proof.
  intros E. apply procede_extends in E; [exact E| | | | |]; cbn.
  - intros t. apply extends_write.
  - intros t. unfold SoupSampler.get_minimum_edge_length.
    destruct (negb _); cbn [snd]; [apply extends_refl|].
    rewrite soup_fold_triangles.
    exists []. now rewrite app_nil_r, fold_min_edge_step_out.
  - intros g b1 b2 t. unfold extends.
    rewrite soup_internal_sample_triangles_out. eauto.
  - intros n q t t' [= <-]. apply extends_refl.
  - intros q1 q2 t. apply extends_refl.
Qed.

(** Whatever the parameters, [sample_triangle_mesh] and
    [sample_triangle_soup] only append to the output: the points already
    written stay in place at the front. *)
Theorem samplers_only_append (np : Named_parameters) (o : list Point_3) :
  (forall res,
      MeshSampler.sample_triangle_mesh approximate_sqrt sqrt face_area
        Random_points_on_segment_3 tm pmap in_mesh on_edges
        Random_points_in_triangle_3 o np = Some res ->
      exists pts, res = o ++ pts)
  /\ (forall res,
         SoupSampler.sample_triangle_soup approximate_sqrt points triangles in_soup
           Random_points_in_triangle_3 o np = Some res ->
         exists pts, res = o ++ pts).
Proof.
  split; intros res.
  - unfold MeshSampler.sample_triangle_mesh.
    destruct (procede _ _ np (constructed o)) as [s'|] eqn:E; [|discriminate].
    intros [= <-]. exact (mesh_procede_extends np np _ _ E).
  - unfold SoupSampler.sample_triangle_soup.
    destruct (procede _ _ np (constructed o)) as [s'|] eqn:E; [|discriminate].
    intros [= <-]. exact (soup_procede_extends np _ _ E).
Qed.

(** Unless [do_sample_vertices(false)] is passed, the output of
    [sample_triangle_mesh] starts with the points of all vertices of the
    mesh, in the order of [vertices(tm)], before any edge or face
    sample. *)
Theorem mesh_vertices_come_first
        (rs gs ms v e f : option bool) (a l g : option Q) (pf pe fo eo : option Z)
        (o res : list Point_3) :
  choose_parameter v true = true ->
  MeshSampler.sample_triangle_mesh approximate_sqrt sqrt face_area
    Random_points_on_segment_3 tm pmap in_mesh on_edges
    Random_points_in_triangle_3 o (mkParameters rs gs ms v e f a l g pf pe fo eo)
  = Some res ->
  exists pts, res = o ++ map pmap (MeshSampler.vertices tm) ++ pts.
Proof.
  intros Hv. unfold MeshSampler.sample_triangle_mesh.
  set (np := mkParameters rs gs ms v e f a l g pf pe fo eo).
  set (D := MeshSampler.sampler_for_triangle_mesh _ _ _ _ _ _ _ _ np).
  assert (E : procede D Random_points_in_triangle_3 np (constructed o)
              = procede D Random_points_in_triangle_3
                        (mkParameters rs gs ms (Some false) e f a l g pf pe fo eo)
                        (sample_points D (constructed o))).
  { unfold procede.
    cbn [np random_uniform_sampling grid_sampling monte_carlo_sampling do_sample_vertices
         do_sample_edges do_sample_faces nb_points_per_area_unit
         nb_points_per_distance_unit].
    rewrite Hv. reflexivity. }
  rewrite E.
  destruct (procede D _ _ (sample_points D (constructed o))) as [s'|] eqn:E';
    [|discriminate].
  intros [= <-].
  destruct (mesh_procede_extends np _ _ _ E') as [pts Hpts].
  exists pts. rewrite Hpts. cbn. now rewrite <- app_assoc.
Qed.

Lemma sample_halfedge_off (distance : Q) (st : MeshSampler.Sampling)
      (hd : MeshSampler.halfedge_descriptor) :
  MeshSampler.sample_halfedge approximate_sqrt pmap distance false false st hd = st.
Proof. reflexivity. Qed.

(** With edge sampling switched off, the grid sampling of a mesh writes
    for every face, in the order of the faces, the interior lattice of
    the triangle taken from the source of [halfedge(f)], and nothing
    else. *)
Theorem mesh_grid_faces_only (faces : list MeshSampler.face_descriptor) (distance : Q)
        (o : list Point_3) :
  MeshSampler.sample_triangles approximate_sqrt pmap faces distance o true false false
  = o ++ flat_map
           (fun fd : MeshSampler.face_descriptor =>
              let '(t0, t1, t2) := fd in
              GridSampling.interior_lattice
                (pmap t2) (pmap t0) (pmap t1)
                (GridSampling.grid_rows approximate_sqrt (pmap t2) (pmap t0) (pmap t1)
                                        distance))
           faces.
Proof.
  unfold MeshSampler.sample_triangles.
  change o with (MeshSampler.written (MeshSampler.mkSampling o [] [])) at 2.
  generalize (MeshSampler.mkSampling o [] []) as st.
  induction faces as [|fd faces IH]; intros st; cbn [fold_left flat_map].
  - now rewrite app_nil_r.
  - rewrite IH. destruct fd as [[t0 t1] t2].
    unfold MeshSampler.sample_face. cbn [MeshSampler.halfedges_around fold_left].
    rewrite !sample_halfedge_off. cbn [MeshSampler.written].
    now rewrite triangle_grid_sampling_unfold, app_assoc.
Qed.

Hypothesis sqrt_positive : forall q, 0 < q -> 0 < sqrt q.

Lemma ms_edges_fold_length (nbe : Z) (l_u : Q) (l : list (nat * nat)) :
  (0 <= nbe)%Z ->
  forall s,
    (length (out s) + length l
     <= length (out (fold_left
                       (fun s ed =>
                          copy_n (Random_points_on_segment_3
                                    (pmap (MeshSampler.source ed))
                                    (pmap (MeshSampler.target ed)))
                                 (MeshSampler.ms_edge_nb_points sqrt pmap nbe l_u ed) s)
                       l s)))%nat.
Proof.
  intros Hnbe. induction l as [|ed l IH]; intros s; cbn [fold_left length]; [lia|].
  eapply Nat.le_trans; [|apply IH].
  rewrite copy_n_length.
  assert (1 <= MeshSampler.ms_edge_nb_points sqrt pmap nbe l_u ed)%Z.
  { unfold MeshSampler.ms_edge_nb_points.
    destruct (nbe =? 0)%Z eqn:E; [apply std_max_Z_ge_r | apply Z.eqb_neq in E; lia]. }
  lia.
Qed.

(** The Monte-Carlo edge sampling of a mesh, on a sampler whose cached
    minimum is positive, divides by a non-zero number and draws at least
    one point on every edge, zero-length edges included. *)
Theorem monte_carlo_every_edge_sampled (nbe : Z) (l_u : Q) (s : Sampler_state) :
  (0 <= nbe)%Z ->
  0 < min_sq_edge_length s ->
  exists s',
    MeshSampler.ms_edges_sample sqrt Random_points_on_segment_3 tm pmap nbe l_u s = Some s'
    /\ (length (out s) + length (MeshSampler.edges tm) <= length (out s'))%nat
    /\ extends s s'.
Proof.
  intros Hnbe Hpos. unfold MeshSampler.ms_edges_sample.
  rewrite (mesh_ms_default_nb_pts_l_u sqrt sqrt_positive nbe l_u s Hpos).
  eexists. split; [reflexivity|]. split.
  - now apply ms_edges_fold_length.
  - apply extends_fold. intros t ed. apply extends_copy_n.
Qed.

End SamplersAppend.

(** ** What the soup sampler ignores *)

Section SoupFlags.

Import Sampler.

Variable approximate_sqrt : Q -> Q.
Variable Random_points_in_triangle_3 : Point_3 -> Point_3 -> Point_3 -> Generator.
Variable in_soup : Weighted_generator.
Variable points : list Point_3.
Variable triangles : list SoupSampler.TriangleType.

Local Abbreviation soup :=
  (SoupSampler.sampler_for_triangle_soup approximate_sqrt points triangles in_soup).

Lemma soup_interior_count (d : Q) (l : list SoupSampler.TriangleType) :
  length
    (flat_map
       (fun tr =>
          let '(p0, p1, p2) := SoupSampler.get_tr_points points tr in
          GridSampling.interior_lattice
            p0 p1 p2 (GridSampling.grid_rows approximate_sqrt p0 p1 p2 d)) l)
  = fold_right
      (fun tr acc =>
         let '(p0, p1, p2) := SoupSampler.get_tr_points points tr in
         (GridSampling.interior_count (GridSampling.grid_rows approximate_sqrt p0 p1 p2 d)
          + acc)%nat)
      O l.
Proof.
  induction l as [|tr l IH]; cbn [flat_map fold_right]; [reflexivity|].
  rewrite length_app, IH. unfold SoupSampler.get_tr_points.
  now rewrite interior_lattice_length.
Qed.

(** Grid sampling of a soup writes, triangle after triangle, the interior
    lattice points of each triangle and nothing else; the two flags it
    receives ([do_sample_faces], [do_sample_edges]) play no part, so the
    faces are sampled also when face sampling is switched off. *)
Theorem soup_grid_sampling_lattices (d : Q) (smpl_fcs smpl_dgs : bool)
        (s : Sampler_state) :
  let s' := SoupSampler.internal_sample_triangles approximate_sqrt points triangles
                                                  d smpl_fcs smpl_dgs s in
  out s'
  = out s
        ++ flat_map
             (fun tr =>
                let '(p0, p1, p2) := SoupSampler.get_tr_points points tr in
                GridSampling.interior_lattice
                  p0 p1 p2 (GridSampling.grid_rows approximate_sqrt p0 p1 p2 d))
             triangles
  /\ length (out s')
     = (length (out s)
        + fold_right
            (fun tr acc =>
               let '(p0, p1, p2) := SoupSampler.get_tr_points points tr in
               (GridSampling.interior_count
                  (GridSampling.grid_rows approximate_sqrt p0 p1 p2 d) + acc)%nat)
            O triangles)%nat
  /\ s' = SoupSampler.internal_sample_triangles approximate_sqrt points triangles
                                                d false false s.
Proof.
  cbv zeta. split; [apply soup_internal_sample_triangles_out|]. split; [|reflexivity].
  now rewrite soup_internal_sample_triangles_out, length_app, soup_interior_count.
Qed.

Lemma soup_monte_carlo_edges np fcs dgs a_u l_u s :
  procede_monte_carlo soup Random_points_in_triangle_3 np fcs dgs a_u l_u s
  = procede_monte_carlo soup Random_points_in_triangle_3 np fcs false a_u l_u s.
Proof.
  unfold procede_monte_carlo.
  destruct (if _ || _ then _ else _) as [m s0].
  destruct fcs.
  - destruct (ms_default_nb_pts_a_u _ a_u m); [|reflexivity].
    destruct dgs; reflexivity.
  - destruct dgs; reflexivity.
Qed.

Lemma soup_random_uniform_edges np fcs dgs a_u l_u s :
  procede_random_uniform soup np fcs dgs a_u l_u s
  = procede_random_uniform soup np fcs false a_u l_u s.
Proof. unfold procede_random_uniform. destruct dgs; reflexivity. Qed.

(** A soup has no edge sampling: under every strategy,
    [sample_triangle_soup] writes the same points whatever is passed for
    [do_sample_edges] and [number_of_points_on_edges]. *)
Theorem soup_edge_sampling_ignored
        (rs gs ms v e e' f : option bool) (a l g : option Q) (pf pe fo eo eo' : option Z)
        (o : list Point_3) :
  SoupSampler.sample_triangle_soup approximate_sqrt points triangles in_soup
    Random_points_in_triangle_3 o (mkParameters rs gs ms v e f a l g pf pe fo eo)
  = SoupSampler.sample_triangle_soup approximate_sqrt points triangles in_soup
      Random_points_in_triangle_3 o (mkParameters rs gs ms v e' f a l g pf pe fo eo').
Proof.
  unfold SoupSampler.sample_triangle_soup. f_equal.
  unfold procede.
  cbn [random_uniform_sampling grid_sampling monte_carlo_sampling do_sample_vertices
       do_sample_edges do_sample_faces nb_points_per_area_unit
       nb_points_per_distance_unit].
  set (s1 := if choose_parameter v true then _ else _).
  assert (Hgrid : forall np np' b b',
             grid_spacing np = grid_spacing np' ->
             (let '(g0, s0) := procede_grid_spacing soup np s1 in
              internal_sample_triangles soup g0 (choose_parameter f true) b s0)
             = (let '(g0, s0) := procede_grid_spacing soup np' s1 in
                internal_sample_triangles soup g0 (choose_parameter f true) b' s0)).
  { intros np np' b b' E. unfold procede_grid_spacing. rewrite E.
    destruct (if Qeq_bool _ 0 then _ else _) as [g0 s0]. reflexivity. }
  rewrite (Hgrid (mkParameters rs gs ms v e f a l g pf pe fo eo)
                 (mkParameters rs gs ms v e' f a l g pf pe fo eo')
                 (choose_parameter e true) (choose_parameter e' true) eq_refl).
  set (s2 := if choose_parameter gs false then _ else s1).
  rewrite (soup_monte_carlo_edges _ _ (choose_parameter e true)),
    (soup_monte_carlo_edges _ _ (choose_parameter e' true)).
  assert (Hmc : forall fcs a_u l_u s,
             procede_monte_carlo soup Random_points_in_triangle_3
               (mkParameters rs gs ms v e f a l g pf pe fo eo) fcs false a_u l_u s
             = procede_monte_carlo soup Random_points_in_triangle_3
                 (mkParameters rs gs ms v e' f a l g pf pe fo eo') fcs false a_u l_u s)
    by reflexivity.
  rewrite Hmc.
  destruct (if choose_parameter ms false then _ else _) as [[s3 a3]|]; [|reflexivity].
  rewrite (soup_random_uniform_edges _ _ (choose_parameter e true)),
    (soup_random_uniform_edges _ _ (choose_parameter e' true)).
  reflexivity.
Qed.

End SoupFlags.

(** ** The value and the hints of the sequential loop *)

Section SequentialLoop.

Import ApproxHausdorff.

Variable approximate_sqrt : Q -> Q.
Variable tree : AABB_tree.

Local Abbreviation dsurf := (distance_to_surface approximate_sqrt tree).
Local Abbreviation maxo := (max_over approximate_sqrt tree).
Local Abbreviation loop := (query_loop approximate_sqrt tree).

Lemma max_over_element (l : list Point_3) :
  forall a pt, In pt l -> dsurf pt <= maxo l a.
Proof.
  induction l as [|p l IH]; intros a pt Hin; [elim Hin|].
  change (maxo (p :: l) a) with (maxo l (Qmax a (dsurf p))).
  destruct Hin as [->|Hin]; [|now apply IH].
  apply Qle_trans with (Qmax a (dsurf pt)); [apply Q.le_max_r | apply max_over_ge].
Qed.

Lemma max_over_attained (l : list Point_3) :
  forall a, maxo l a == a \/ exists pt, In pt l /\ maxo l a == dsurf pt.
Proof.
  induction l as [|p l IH]; intros a; [left; reflexivity|].
  change (maxo (p :: l) a) with (maxo l (Qmax a (dsurf p))).
  destruct (IH (Qmax a (dsurf p))) as [E|(pt & Hin & E)].
  - destruct (Q.max_dec a (dsurf p)) as [E'|E'].
    + left. now rewrite E, E'.
    + right. exists p. split; [now left | now rewrite E, E'].
  - right. exists pt. split; [now right | exact E].
Qed.

Lemma query_loop_app (l1 l2 : list Point_3) (h : Point_3) :
  loop (l1 ++ l2) h = fold_left (query_step approximate_sqrt tree) l2 (loop l1 h).
Proof. unfold query_loop. apply fold_left_app. Qed.

Lemma query_loop_queries_length (l : list Point_3) (h : Point_3) :
  length (queries (loop l h)) = length l.
Proof.
  rewrite <- (length_map fst). unfold query_loop.
  now rewrite query_loop_queries.
Qed.

Lemma fold_query_step_queries (l : list Point_3) :
  forall st, exists more,
    queries (fold_left (query_step approximate_sqrt tree) l st) = queries st ++ more.
Proof.
  induction l as [|pt l IH]; intros st; cbn [fold_left].
  - exists []. now rewrite app_nil_r.
  - destruct (IH (query_step approximate_sqrt tree st pt)) as [more E].
    rewrite E. cbn [query_step queries]. rewrite <- app_assoc. eauto.
Qed.

(** Warm start: the first closest-point query of the sequential loop is
    made with the hint passed in, and every later one with the point the
    tree returned for the sample just before, a point of the surface. *)
Theorem queries_are_warm_started (hint : Point_3) :
  (forall pt pts,
      nth_error (queries (loop (pt :: pts) hint)) 0 = Some (pt, hint))
  /\ (forall before previous pt after,
         let answer := closest_point tree previous (ApproxHausdorff.hint (loop before hint)) in
         nth_error (queries (loop (before ++ previous :: pt :: after) hint))
                   (S (length before))
         = Some (pt, answer)
         /\ on_surface tree answer).
Proof.
  split.
  - intros pt pts. unfold query_loop. cbn [fold_left].
    destruct (fold_query_step_queries pts (query_step approximate_sqrt tree
                                                      (mkLoop hint 0 []) pt)) as [more E].
    rewrite E. reflexivity.
  - intros before previous pt after answer.
    split; [|apply closest_point_on_surface].
    replace (before ++ previous :: pt :: after)
      with ((before ++ [previous]) ++ pt :: after)
      by (now rewrite <- app_assoc).
    rewrite query_loop_app. cbn [fold_left].
    set (st := loop (before ++ [previous]) hint).
    destruct (fold_query_step_queries after (query_step approximate_sqrt tree st pt))
      as [more E].
    rewrite E. cbn [query_step queries].
    assert (Hlen : length (queries st) = S (length before)).
    { unfold st. rewrite query_loop_queries_length, length_app. cbn. lia. }
    rewrite <- app_assoc, nth_error_app2 by lia.
    rewrite Hlen, Nat.sub_diag. cbn [app nth_error]. f_equal. f_equal.
    unfold st. rewrite query_loop_app. reflexivity.
Qed.

Hypothesis approximate_sqrt_compat : Proper (Qeq ==> Qeq) approximate_sqrt.

(** The sequential mode returns the largest distance of a sample to the
    surface, and [0] when that is larger (in particular on an empty
    range): the value is not negative, no sample is farther away, and it
    is [0] or the distance of one of the samples. *)
Theorem sequential_distance_is_largest (sample_points : list Point_3) (hint : Point_3)
        (sch : Schedule) :
  let r := approximate_Hausdorff_distance_impl approximate_sqrt tree Sequential_tag sch
                                               sample_points hint in
  0 <= r
  /\ (forall pt, In pt sample_points -> dsurf pt <= r)
  /\ (r == 0 \/ exists pt, In pt sample_points /\ r == dsurf pt).
Proof.
  cbv zeta. unfold approximate_Hausdorff_distance_impl.
  pose proof (query_loop_hdist approximate_sqrt tree approximate_sqrt_compat
                               sample_points hint) as E.
  split; [|split].
  - rewrite E. apply max_over_ge.
  - intros pt Hin. rewrite E. now apply max_over_element.
  - destruct (max_over_attained sample_points 0) as [E0|(pt & Hin & Ept)].
    + left. now rewrite E.
    + right. exists pt. split; [exact Hin | now rewrite E].
Qed.

End SequentialLoop.

(** ** The symmetric distance *)

Section Symmetric.

Import Sampler ApproxHausdorff DistanceCalls.

Variables approximate_sqrt sqrt : Q -> Q.
Variable face_area : Point_3 -> Point_3 -> Point_3 -> Q.
Variable Random_points_on_segment_3 : Point_3 -> Point_3 -> Generator.
Variable Random_points_in_triangle_3 : Point_3 -> Point_3 -> Point_3 -> Generator.
Variable in_mesh on_edges : MeshSampler.Triangle_mesh -> (nat -> Point_3) -> Weighted_generator.
Variable spatial_sort : list Point_3 -> list Point_3.
Variable build : MeshSampler.Triangle_mesh -> (nat -> Point_3) -> AABB_tree.
Variable tag : Concurrency_tag.

Local Abbreviation directed :=
  (approximate_Hausdorff_distance_meshes
     approximate_sqrt sqrt face_area Random_points_on_segment_3
     Random_points_in_triangle_3 in_mesh on_edges spatial_sort build tag).
Local Abbreviation symmetric :=
  (approximate_symmetric_Hausdorff_distance
     approximate_sqrt sqrt face_area Random_points_on_segment_3
     Random_points_in_triangle_3 in_mesh on_edges spatial_sort build tag).

(** The symmetric distance is defined exactly when both directed
    distances are, it is then the larger of the two, and exchanging the
    two meshes (with their parameters) gives the same value. *)
Theorem symmetric_distance_commutes (sch12 sch21 : Schedule)
        (tm1 tm2 : MeshSampler.Triangle_mesh) (np1 np2 : Mesh_parameters) :
  match symmetric sch12 sch21 tm1 tm2 np1 np2, symmetric sch21 sch12 tm2 tm1 np2 np1 with
  | Some d, Some d' =>
      d == d'
      /\ exists d12 d21,
          directed sch12 tm1 tm2 np1 np2 = Some d12
          /\ directed sch21 tm2 tm1 np2 np1 = Some d21
          /\ d12 <= d /\ d21 <= d /\ (d = d12 \/ d = d21)
  | None, None =>
      directed sch12 tm1 tm2 np1 np2 = None \/ directed sch21 tm2 tm1 np2 np1 = None
  | _, _ => False
  end.
Proof.
  unfold approximate_symmetric_Hausdorff_distance.
  destruct (directed sch12 tm1 tm2 np1 np2) as [d12|];
    destruct (directed sch21 tm2 tm1 np2 np1) as [d21|]; auto.
  split.
  - rewrite !std_max_Qmax. apply Q.max_comm.
  - exists d12, d21. repeat split; try reflexivity.
    + apply std_max_ge_l.
    + apply std_max_ge_r.
    + unfold std_max. destruct (Qlt_le_dec d12 d21); auto.
Qed.

End Symmetric.

(** ** The quadrisection *)

Section Quadrisection.

Import BoundedError.

(** The four sub-triangles of the midpoint subdivision have each a
    quarter of the area of their parent (a sixteenth of its squared
    area): together they cover it without overlap. *)
Theorem sub_triangles_quarter_area (v0 v1 v2 : Point_3) :
  Forall (fun t => squared_area (vertex0 t) (vertex1 t) (vertex2 t)
                   == squared_area v0 v1 v2 / 16)
         (sub_triangles v0 v1 v2).
Proof.
  unfold sub_triangles.
  repeat constructor; cbn [vertex0 vertex1 vertex2];
    unfold squared_area, vector, midpoint; cbn [x y z]; field.
Qed.

End Quadrisection.

(** ** The value of the naive validator *)

Section NaiveValue.

Import BoundedError.

Variable closest_point : Point_3 -> Point_3.
Variable approximate_sqrt : Q -> Q.

Local Abbreviation to_mesh := (fun v => squared_distance v (closest_point v)).

Lemma squared_distance_nonneg (p q : Point_3) : 0 <= squared_distance p q.
Proof.
  unfold squared_distance.
  assert (Hsq : forall a : Q, 0 <= a * a) by (intros a; nra).
  pose proof (Hsq (x p - x q)). pose proof (Hsq (y p - y q)).
  pose proof (Hsq (z p - z q)). lra.
Qed.

Lemma recursive_hausdorff_subdivision_corners (fuel : nat) :
  forall v0 v1 v2 bound r,
    recursive_hausdorff_subdivision closest_point fuel v0 v1 v2 bound = Some r ->
    to_mesh v0 <= r /\ to_mesh v1 <= r /\ to_mesh v2 <= r.
Proof.
  induction fuel as [|fuel IH]; intros v0 v1 v2 bound r; [discriminate|].
  cbn [recursive_hausdorff_subdivision].
  destruct (Qlt_le_dec _ bound) as [_|_].
  - intros [= <-]. repeat split.
    + eapply Qle_trans; [apply std_max_ge_l | apply std_max_ge_l].
    + eapply Qle_trans; [apply std_max_ge_r | apply std_max_ge_l].
    + apply std_max_ge_r.
  - destruct (recursive_hausdorff_subdivision _ fuel v0 _ _ bound) as [a|] eqn:Ea;
      [|discriminate].
    destruct (recursive_hausdorff_subdivision _ fuel v1 _ _ bound) as [b|] eqn:Eb;
      [|discriminate].
    destruct (recursive_hausdorff_subdivision _ fuel v2 _ _ bound) as [c|] eqn:Ec;
      [|discriminate].
    destruct (recursive_hausdorff_subdivision _ fuel (midpoint v0 v1) (midpoint v0 v2)
                                              (midpoint v1 v2) bound) as [d|];
      [|discriminate].
    intros [= <-].
    apply IH in Ea as (Ha & _). apply IH in Eb as (Hb & _). apply IH in Ec as (Hc & _).
    repeat split.
    + eapply Qle_trans; [exact Ha|].
      eapply Qle_trans; [apply std_max_ge_l | apply std_max_ge_l].
    + eapply Qle_trans; [exact Hb|].
      eapply Qle_trans; [apply std_max_ge_r | apply std_max_ge_l].
    + eapply Qle_trans; [exact Hc|].
      eapply Qle_trans; [apply std_max_ge_l | apply std_max_ge_r].
Qed.

(** The value the recursive subdivision returns for a triangle is not
    negative and is at least the squared distance of each corner of the
    triangle to the second mesh, however deep the subdivision went. *)
Theorem recursive_hausdorff_subdivision_above_corners
        (fuel : nat) (v0 v1 v2 : Point_3) (squared_error_bound r : Q) :
  recursive_hausdorff_subdivision closest_point fuel v0 v1 v2 squared_error_bound
  = Some r ->
  0 <= r /\ to_mesh v0 <= r /\ to_mesh v1 <= r /\ to_mesh v2 <= r.
Proof.
  intros H. apply recursive_hausdorff_subdivision_corners in H as (H0 & H1 & H2).
  repeat split; try assumption.
  eapply Qle_trans; [apply squared_distance_nonneg | exact H0].
Qed.

Local Abbreviation naive_step :=
  (fun fuel squared_error_bound (acc : option Q) (triangle : Triangle_3) =>
     match acc with
     | None => None
     | Some squared_lower_bound =>
         match recursive_hausdorff_subdivision
                 closest_point fuel (vertex0 triangle) (vertex1 triangle)
                 (vertex2 triangle) squared_error_bound with
         | None => None
         | Some triangle_bound =>
             Some (if Qlt_le_dec squared_lower_bound triangle_bound
                   then triangle_bound else squared_lower_bound)
         end
     end).

Lemma naive_fold_none (fuel : nat) (b : Q) (l : list Triangle_3) :
  fold_left (naive_step fuel b) l None = None.
Proof. induction l as [|t l IH]; cbn [fold_left]; [reflexivity | exact IH]. Qed.

Lemma naive_fold_some (fuel : nat) (b : Q) (l : list Triangle_3) :
  forall a m,
    fold_left (naive_step fuel b) l (Some a) = Some m ->
    a <= m
    /\ forall t, In t l ->
                 exists rt,
                   recursive_hausdorff_subdivision
                     closest_point fuel (vertex0 t) (vertex1 t) (vertex2 t) b = Some rt
                   /\ rt <= m.
Proof.
  induction l as [|t l IH]; intros a m; cbn [fold_left].
  - intros [= <-]. split; [apply Qle_refl | intros t []].
  - destruct (recursive_hausdorff_subdivision closest_point fuel _ _ _ b) as [rt|] eqn:E;
      [|now rewrite naive_fold_none].
    intros H. apply IH in H as [Hle Hall].
    assert (Hup : a <= (if Qlt_le_dec a rt then rt else a)
                  /\ rt <= (if Qlt_le_dec a rt then rt else a)).
    { destruct (Qlt_le_dec a rt); split;
        try apply Qle_refl; try assumption; now apply Qlt_le_weak. }
    split; [eapply Qle_trans; [apply Hup | exact Hle]|].
    intros t' [<-|Hin]; [|now apply Hall].
    exists rt. split; [exact E|]. eapply Qle_trans; [apply Hup | exact Hle].
Qed.

(** When the naive validator returns, its value is the square root of a
    non-negative number that is at least the value of the recursive
    subdivision of every triangle of the first mesh (and is the square
    root of [0] for a mesh without faces). *)
Theorem bounded_error_Hausdorff_naive_impl_dominates
        (fuel : nat) (tm1 : list Triangle_3) (error_bound r : Q) :
  bounded_error_Hausdorff_naive_impl closest_point approximate_sqrt fuel tm1 error_bound
  = Some r ->
  exists m,
    r = approximate_sqrt m
    /\ 0 <= m
    /\ (tm1 = [] -> m = 0)
    /\ forall t, In t tm1 ->
                 exists rt,
                   recursive_hausdorff_subdivision
                     closest_point fuel (vertex0 t) (vertex1 t) (vertex2 t)
                     (error_bound * error_bound) = Some rt
                   /\ rt <= m.
Proof.
  unfold bounded_error_Hausdorff_naive_impl.
  destruct (fold_left _ tm1 (Some 0)) as [m|] eqn:E; [|discriminate].
  intros [= <-]. exists m. split; [reflexivity|].
  pose proof (naive_fold_some fuel (error_bound * error_bound) tm1 0 m E) as [H0 Hall].
  repeat split; try assumption.
  intros ->. cbn in E. now injection E as <-.
Qed.

End NaiveValue.

(** ** How long the main loop runs, and where its value lies *)

Section EngineBounds.

Import BoundedError.

Variable local_bounds : Triangle_3 -> Hausdorff_bounds -> Hausdorff_bounds.
Variable closest_primitive : Point_3 -> nat.
Variable error_bound : Q.

Local Abbreviation iteration := (iteration local_bounds closest_primitive error_bound).
Local Abbreviation main_loop := (main_loop local_bounds closest_primitive error_bound).

Lemma budget_uniform (bound : Q) (n : nat) (h : list Candidate_triangle) :
  Forall (fun c => within bound n (vertex0 (m_triangle c)) (vertex1 (m_triangle c))
                          (vertex2 (m_triangle c))) h ->
  budget bound h (length h * full_subdivision n).
Proof.
  induction 1 as [|c h Hc _ IH]; cbn [length Nat.mul]; now constructor.
Qed.

Lemma full_subdivision_closed (n : nat) :
  (3 * Z.of_nat (full_subdivision n) + 1 = 4 ^ (Z.of_nat n + 1))%Z.
Proof.
  induction n as [|n IH]; [reflexivity|].
  cbn [full_subdivision].
  replace (Z.of_nat (S n) + 1)%Z with (Z.succ (Z.of_nat n + 1)) by lia.
  rewrite Z.pow_succ_r by lia. lia.
Qed.

(** If every seeded candidate has all squared edge lengths below
    [error_bound^2 * 4^n], the main loop ends within
    [(4^(n+1) - 1) / 3] iterations per seeded candidate, the size of a
    full subdivision of depth [n]. *)
Theorem main_loop_iteration_bound (n : nat) (seeded : Search) :
  Forall (fun c => within (squared_error_bound error_bound) n
                          (vertex0 (m_triangle c)) (vertex1 (m_triangle c))
                          (vertex2 (m_triangle c)))
         (candidate_triangles seeded) ->
  (3 * Z.of_nat (full_subdivision n) + 1 = 4 ^ (Z.of_nat n + 1))%Z
  /\ forall fuel,
      (length (candidate_triangles seeded) * full_subdivision n <= fuel)%nat ->
      exists final, main_loop fuel seeded = Some final
                    /\ loop_condition error_bound final = false.
Proof.
  intros Hall. split; [apply full_subdivision_closed|].
  intros fuel Hfuel.
  eapply main_loop_returns; [apply budget_uniform; exact Hall | exact Hfuel].
Qed.

Lemma process_sub_triangles_lower (tb : Hausdorff_bounds) (subs : list Triangle_3) :
  forall st,
    fst (global_bounds st)
    <= fst (global_bounds (fold_left (process_sub_triangle local_bounds tb) subs st)).
Proof.
  induction subs as [|sub subs IH]; intros st; cbn [fold_left]; [apply Qle_refl|].
  eapply Qle_trans; [|apply IH].
  unfold process_sub_triangle. cbn [global_bounds fst].
  unfold Qgtb. destruct (Qlt_le_dec _ _); [now apply Qlt_le_weak | apply Qle_refl].
Qed.

Lemma iteration_lower (st : Search) :
  fst (global_bounds st) <= fst (global_bounds (iteration st)).
Proof.
  unfold BoundedError.iteration.
  destruct (top (candidate_triangles st)) as [t|]; [|apply Qle_refl].
  destruct (Qgtb (snd (m_bounds t)) (fst (global_bounds st))) eqn:Eup;
    cbn [andb]; [|apply Qle_refl].
  apply Qgtb_true in Eup.
  destruct (Qgtb _ error_bound); [|apply Qle_refl].
  destruct (_ && _); [now apply Qlt_le_weak|].
  destruct (_ && _); [now apply Qlt_le_weak|].
  match goal with
  | |- context [fold_left ?f ?l ?s] =>
      pose proof (process_sub_triangles_lower (m_bounds t) l s) as H;
      set (st' := fold_left f l s) in *
  end.
  cbn [global_bounds] in H.
  destruct (top (candidate_triangles st')); exact H.
Qed.

(** Whatever bounds the traversal of the second tree reports, no
    iteration of the main loop lowers the global lower bound, so the
    final lower bound is at least the seeded one. *)
Theorem global_lower_bound_never_decreases :
  (forall st, fst (global_bounds st) <= fst (global_bounds (iteration st)))
  /\ (forall fuel st final,
         main_loop fuel st = Some final ->
         fst (global_bounds st) <= fst (global_bounds final)).
Proof.
  split; [exact iteration_lower|].
  induction fuel as [|fuel IH]; intros st final; cbn [BoundedError.main_loop];
    destruct (loop_condition error_bound st); try discriminate.
  - intros [= <-]. apply Qle_refl.
  - intros H. eapply Qle_trans; [apply iteration_lower | now apply IH].
  - intros [= <-]. apply Qle_refl.
Qed.

Lemma main_loop_reached (fuel : nat) :
  forall seeded st final,
    reached local_bounds closest_primitive error_bound seeded st ->
    main_loop fuel st = Some final ->
    reached local_bounds closest_primitive error_bound seeded final.
Proof.
  induction fuel as [|fuel IH]; intros seeded st final Hr; cbn [BoundedError.main_loop];
    destruct (loop_condition error_bound st) eqn:Ec; try discriminate.
  - now intros [= <-].
  - apply IH. now constructor.
  - now intros [= <-].
Qed.

Hypothesis local_bounds_tighten :
  forall sub parent,
    fst (local_bounds sub parent) <= snd (local_bounds sub parent)
    /\ snd (local_bounds sub parent) <= snd parent.

(** With sub-triangle bounds that are ordered and not above their
    parent's upper bound, and a seeded state whose upper bound dominates,
    the value returned lies between the final lower and upper bound,
    which lie between the seeded ones. *)
Theorem estimate_within_seeded_bounds (fuel : nat) (seeded : Search) (r : Q) :
  bracketed seeded ->
  bounded_error_Hausdorff_impl local_bounds closest_primitive error_bound fuel seeded
  = Some r ->
  exists final,
    main_loop fuel seeded = Some final
    /\ fst (global_bounds seeded) <= fst (global_bounds final)
    /\ fst (global_bounds final) <= r
    /\ r <= snd (global_bounds final)
    /\ snd (global_bounds final) <= snd (global_bounds seeded).
Proof.
  intros Hseed. unfold bounded_error_Hausdorff_impl.
  destruct (main_loop fuel seeded) as [final|] eqn:E; [|discriminate].
  intros [= <-]. exists final. split; [reflexivity|].
  pose proof (main_loop_reached fuel seeded seeded final
                                (reached_seed _ _ _ seeded) E) as Hr.
  destruct (reached_bounds local_bounds closest_primitive error_bound
                           local_bounds_tighten seeded final Hseed Hr)
    as ((_ & Hord) & Hlo & Hup).
  unfold estimate.
  set (lo := fst (global_bounds final)) in *.
  set (hi := snd (global_bounds final)) in *.
  repeat split; try assumption; unfold Qdiv; change (/ 2) with (1 # 2); lra.
Qed.

End EngineBounds.

(** ** The sign of the value of the parallel mode *)

Section ParallelSign.

Import ApproxHausdorff.

Variable approximate_sqrt : Q -> Q.
Variable tree : AABB_tree.

Lemma query_fold_nonneg (l : list Point_3) :
  forall st, 0 <= hdist st ->
             0 <= hdist (fold_left (query_step approximate_sqrt tree) l st).
Proof.
  induction l as [|pt l IH]; intros st H; cbn [fold_left]; [exact H|].
  apply IH. cbn [query_step hdist].
  destruct (Qlt_le_dec _ _) as [Hlt|_]; [|exact H].
  eapply Qle_trans; [exact H | now apply Qlt_le_weak].
Qed.

Lemma reduce_nonneg (pts : list Point_3) (sch : Schedule) :
  forall f, 0 <= distance (reduce approximate_sqrt tree pts sch f)
            /\ distance f <= distance (reduce approximate_sqrt tree pts sch f).
Proof.
  induction sch as [b e|s1 IH1 s2 IH2|s1 IH1 s2 IH2]; intros f; cbn [reduce].
  - unfold apply_range. cbn [distance].
    pose proof (query_fold_nonneg (subrange pts b e) (mkLoop (initial_hint f) 0 [])
                                  (Qle_refl 0)) as H.
    fold (query_loop approximate_sqrt tree (subrange pts b e) (initial_hint f)) in H.
    destruct (Qlt_le_dec _ _) as [Hlt|Hge]; split.
    + exact H.
    + now apply Qlt_le_weak.
    + eapply Qle_trans; eauto.
    + apply Qle_refl.
  - destruct (IH1 f) as [_ H1]. destruct (IH2 (reduce approximate_sqrt tree pts s1 f))
      as [H2 H3].
    split; [exact H2 | eapply Qle_trans; eauto].
  - destruct (IH1 f) as [H1 H2]. unfold join. cbn [distance]. split.
    + eapply Qle_trans; [exact H1 | apply std_max_ge_r].
    + eapply Qle_trans; [exact H2 | apply std_max_ge_r].
Qed.

(** Whatever the tree answers and however the reduction is split, the
    parallel mode returns a non-negative value on a non-empty range; on
    an empty range it returns the initial [-1] of the reduction body,
    where the sequential mode returns [0]. *)
Theorem parallel_value_sign (sch : Schedule) (hint : Point_3) :
  (forall sample_points,
      sample_points <> [] ->
      0 <= approximate_Hausdorff_distance_impl approximate_sqrt tree Parallel_tag sch
                                               sample_points hint)
  /\ approximate_Hausdorff_distance_impl approximate_sqrt tree Parallel_tag sch [] hint
     = -1
  /\ approximate_Hausdorff_distance_impl approximate_sqrt tree Sequential_tag sch [] hint
     = 0.
Proof.
  split; [|split; reflexivity].
  intros pts Hne. unfold approximate_Hausdorff_distance_impl, parallel_reduce.
  destruct pts as [|pt pts]; [now elim Hne|].
  apply reduce_nonneg.
Qed.

End ParallelSign.

(** ** One iteration of the main loop on the queue *)

Section QueueSize.

Import BoundedError.

Variable local_bounds : Triangle_3 -> Hausdorff_bounds -> Hausdorff_bounds.
Variable closest_primitive : Point_3 -> nat.
Variable error_bound : Q.

Lemma extract_top_length (h : list Candidate_triangle) :
  forall c, length (snd (extract_top c h)) = length h.
Proof.
  induction h as [|c' h IH]; intros c; cbn [extract_top]; [reflexivity|].
  specialize (IH c'). destruct (extract_top c' h) as [m rest]. cbn [snd] in IH.
  destruct (Qlt_le_dec _ _); cbn [snd length]; now rewrite ?IH.
Qed.

(** An iteration of the main loop on a non-empty queue either removes
    the top candidate (pruned or promoted) and leaves the global upper
    bound untouched, or replaces it by its four sub-triangles; the upper
    bound is recomputed only in the second case. *)
Theorem iteration_replaces_top (st : Search) :
  candidate_triangles st <> [] ->
  let st' := iteration local_bounds closest_primitive error_bound st in
  (S (length (candidate_triangles st')) = length (candidate_triangles st)
   /\ snd (global_bounds st') = snd (global_bounds st))
  \/ length (candidate_triangles st') = (length (candidate_triangles st) + 3)%nat.
Proof.
  intros Hne. cbv zeta. unfold iteration.
  destruct (candidate_triangles st) as [|c h] eqn:Eh; [now elim Hne|].
  cbn [top pop length].
  pose proof (extract_top_length h c) as Hlen.
  destruct (extract_top c h) as [m rest]. cbn [fst snd] in *.
  destruct (_ && _); cbn [candidate_triangles global_bounds snd];
    [|left; split; [now rewrite Hlen | reflexivity]].
  destruct (_ && _); cbn [candidate_triangles global_bounds snd];
    [left; split; [now rewrite Hlen | reflexivity]|].
  destruct (_ && _); cbn [candidate_triangles global_bounds snd];
    [left; split; [now rewrite Hlen | reflexivity]|].
  right.
  match goal with
  | |- context [fold_left ?f ?l ?s] =>
      assert (Hheap : candidate_triangles (fold_left f l s)
                      = rev (map (fun sub => mkCandidate sub
                                               (local_bounds sub (m_bounds m))) l)
                            ++ rest) by reflexivity;
      set (st' := fold_left f l s) in *
  end.
  assert (Hl : length (candidate_triangles st') = (length rest + 4)%nat).
  { rewrite Hheap. unfold sub_triangles. cbn [map rev app length]. lia. }
  destruct (top (candidate_triangles st')); cbn [candidate_triangles]; lia.
Qed.

End QueueSize.

(** ** The statements on concrete inputs *)

Section Witnesses.

Import Sampler Examples ApproxHausdorff BoundedError.

Lemma sqrt_up_compat : Proper (Qeq ==> Qeq) sqrt_up.
Proof.
  intros a b E. unfold sqrt_up. rewrite (Qred_complete a b E). reflexivity.
Qed.

Lemma sqrt_up_positive (q : Q) : 0 < q -> 0 < sqrt_up q.
Proof.
  intros Hq. unfold sqrt_up.
  assert (Hr : 0 < Qred q) by (now rewrite Qred_correct).
  destruct (Qred q) as [n d]. unfold Qlt in *. cbn [Qnum Qden] in *.
  rewrite Z.mul_0_l, Z.mul_1_r in *.
  apply Z.sqrt_up_pos. nia.
Qed.

Lemma plane_bounds_tighten (sub : Triangle_3) (parent : Hausdorff_bounds) :
  fst (plane_bounds sub parent) <= snd (plane_bounds sub parent)
  /\ snd (plane_bounds sub parent) <= snd parent.
Proof.
  unfold plane_bounds. cbn [fst snd]. split; apply Q.le_min_r.
Qed.



Lemma forked_covers : covers forked 0 (length three_samples).
Proof.
  exists 1%nat. split.
  - cbn. repeat split; lia.
  - exists 2%nat. split; cbn; repeat split; lia.
Qed.

Lemma parallel_equals_sequential_witness :
  three_samples <> []
  /\ covers forked 0 (length three_samples)
  /\ approximate_Hausdorff_distance_impl sqrt_up plane_tree Parallel_tag forked
                                         three_samples ORIGIN
     == approximate_Hausdorff_distance_impl sqrt_up plane_tree Sequential_tag forked
                                            three_samples ORIGIN.
Proof.
  split; [discriminate|]. split; [exact forked_covers|].
  apply (parallel_equals_sequential sqrt_up plane_tree sqrt_up_compat
                                    three_samples ORIGIN forked).
  - discriminate.
  - exact forked_covers.
Defined.

Lemma sequential_hint_independent_witness :
  approximate_Hausdorff_distance_impl sqrt_up plane_tree Sequential_tag forked
                                      three_samples ORIGIN
  == approximate_Hausdorff_distance_impl sqrt_up plane_tree Sequential_tag forked
                                         three_samples (mkPoint 7 7 7).
Proof.
  exact (sequential_hint_independent sqrt_up plane_tree sqrt_up_compat
                                     three_samples forked ORIGIN (mkPoint 7 7 7)).
Defined.

Lemma slanted_seed_bracketed : bracketed slanted_seed.
Proof.
  split.
  - repeat constructor. cbn. discriminate.
  - cbn. discriminate.
Qed.

Lemma global_bounds_monotone_witness :
  let st := iteration plane_bounds half_plane (1 # 2) slanted_seed in
  bracketed slanted_seed
  /\ reached plane_bounds half_plane (1 # 2) slanted_seed st
  /\ loop_condition (1 # 2) st = true
  /\ fst (global_bounds slanted_seed) <= fst (global_bounds st)
  /\ snd (global_bounds st) <= snd (global_bounds slanted_seed)
  /\ fst (global_bounds st)
     <= fst (global_bounds (iteration plane_bounds half_plane (1 # 2) st))
  /\ snd (global_bounds (iteration plane_bounds half_plane (1 # 2) st))
     <= snd (global_bounds st).
Proof.
  intros st.
  assert (Hreach : reached plane_bounds half_plane (1 # 2) slanted_seed st)
    by (apply reached_iteration; [apply reached_seed | reflexivity]).
  assert (Hcond : loop_condition (1 # 2) st = true) by (vm_compute; reflexivity).
  destruct (global_bounds_monotone plane_bounds half_plane (1 # 2) plane_bounds_tighten
                                   slanted_seed st slanted_seed_bracketed Hreach)
    as [[H1 H2] H3].
  destruct (H3 Hcond) as [H4 H5].
  exact (conj slanted_seed_bracketed
              (conj Hreach (conj Hcond (conj H1 (conj H2 (conj H4 H5)))))).
Defined.



End Witnesses.

Section MoreWitnesses.

Import Sampler Examples ApproxHausdorff BoundedError.

Local Abbreviation unit_sampler :=
  (MeshSampler.sampler_for_triangle_mesh sqrt_up sqrt_up area_up midpoint_generator
     one_triangle (corner 1) origin_generator origin_generator (np_monte_carlo_faces 100)).

Lemma get_minimum_edge_length_all_degenerate_witness :
  (forall q, In q (MeshSampler.squared_edge_lengths with_degenerate_edge (corner 0)) ->
             q <= 0)
  /\ MeshSampler.get_minimum_edge_length with_degenerate_edge (corner 0) (constructed [])
     = (DBL_MAX, constructed []).
Proof.
  assert (H : forall q, In q (MeshSampler.squared_edge_lengths with_degenerate_edge
                                                               (corner 0)) -> q <= 0).
  { intros q Hq. vm_compute in Hq.
    repeat (destruct Hq as [<-|Hq]; [vm_compute; discriminate|]). elim Hq. }
  split; [exact H|].
  exact (proj1 (get_minimum_edge_length_all_degenerate
                  with_degenerate_edge (corner 0) [] H)).
Defined.

Lemma monte_carlo_every_face_sampled_witness :
  (0 <= 0)%Z
  /\ let s' := fold_left (ms_sample_face unit_sampler centroid_generator 0 100)
                         (get_range unit_sampler) (constructed []) in
     (length (out (constructed [])) + length (get_range unit_sampler)
      <= length (out s'))%nat.
Proof.
  split; [lia|].
  exact (proj1 (monte_carlo_every_face_sampled
                  unit_sampler centroid_generator 0 100 (constructed []) (Z.le_refl 0))).
Defined.

Lemma random_uniform_off_by_request_witness :
  procede unit_sampler centroid_generator
          (mkParameters None (Some true) None None None None None None None
                        None None None None) (constructed [])
  = procede unit_sampler centroid_generator
            (mkParameters (Some false) (Some true) None None None None None None None
                          None None None None) (constructed []).
Proof.
  exact (random_uniform_off_by_request
           unit_sampler centroid_generator (Some true) None None None None None None None
           None None None None (constructed []) (or_introl eq_refl)).
Defined.

Lemma mesh_vertices_come_first_witness :
  exists res pts,
    sample_mesh one_triangle 2 np_grid = Some res
    /\ res = [] ++ map (corner 2) (MeshSampler.vertices one_triangle) ++ pts.
Proof.
  destruct (sample_mesh one_triangle 2 np_grid) as [res|] eqn:E;
    [|vm_compute in E; discriminate].
  destruct (mesh_vertices_come_first
              sqrt_up sqrt_up area_up midpoint_generator centroid_generator
              origin_generator origin_generator one_triangle (corner 2)
              None (Some true) None None None None None None None None None None None
              [] res eq_refl E) as [pts Hpts].
  exists res, pts. split; [reflexivity | exact Hpts].
Defined.

Lemma monte_carlo_every_edge_sampled_witness :
  (0 <= 0)%Z
  /\ 0 < min_sq_edge_length (constructed [])
  /\ exists s',
      MeshSampler.ms_edges_sample sqrt_up midpoint_generator one_triangle (corner 1)
                                  0 2 (constructed []) = Some s'
      /\ (length (out (constructed [])) + length (MeshSampler.edges one_triangle)
          <= length (out s'))%nat
      /\ extends (constructed []) s'.
Proof.
  split; [lia|]. split; [exact DBL_MAX_pos|].
  exact (monte_carlo_every_edge_sampled
           sqrt_up midpoint_generator one_triangle (corner 1) sqrt_up_positive
           0 2 (constructed []) (Z.le_refl 0) DBL_MAX_pos).
Defined.

Lemma sequential_distance_is_largest_witness :
  let r := approximate_Hausdorff_distance_impl sqrt_up plane_tree Sequential_tag forked
                                               three_samples ORIGIN in
  0 <= r
  /\ (forall pt, In pt three_samples -> distance_to_surface sqrt_up plane_tree pt <= r)
  /\ (r == 0 \/ exists pt, In pt three_samples
                           /\ r == distance_to_surface sqrt_up plane_tree pt).
Proof.
  exact (sequential_distance_is_largest sqrt_up plane_tree sqrt_up_compat
                                        three_samples ORIGIN forked).
Defined.

Lemma recursive_hausdorff_subdivision_above_corners_witness :
  exists r,
    recursive_hausdorff_subdivision closest_on_plane 10 (vertex0 slanted)
                                    (vertex1 slanted) (vertex2 slanted) (1 # 4) = Some r
    /\ 0 <= r
    /\ squared_distance (vertex0 slanted) (closest_on_plane (vertex0 slanted)) <= r
    /\ squared_distance (vertex1 slanted) (closest_on_plane (vertex1 slanted)) <= r
    /\ squared_distance (vertex2 slanted) (closest_on_plane (vertex2 slanted)) <= r.
Proof.
  destruct (recursive_hausdorff_subdivision closest_on_plane 10 (vertex0 slanted)
                                            (vertex1 slanted) (vertex2 slanted) (1 # 4))
    as [r|] eqn:E; [|vm_compute in E; discriminate].
  exists r. split; [reflexivity|].
  exact (recursive_hausdorff_subdivision_above_corners
           closest_on_plane 10 (vertex0 slanted) (vertex1 slanted) (vertex2 slanted)
           (1 # 4) r E).
Defined.

Lemma bounded_error_Hausdorff_naive_impl_dominates_witness :
  exists r m,
    bounded_error_Hausdorff_naive_impl closest_on_plane sqrt_up 10 [slanted] (1 # 2)
    = Some r
    /\ r = sqrt_up m /\ 0 <= m.
Proof.
  destruct (bounded_error_Hausdorff_naive_impl closest_on_plane sqrt_up 10 [slanted] (1 # 2))
    as [r|] eqn:E; [|vm_compute in E; discriminate].
  destruct (bounded_error_Hausdorff_naive_impl_dominates
              closest_on_plane sqrt_up 10 [slanted] (1 # 2) r E) as (m & Hr & Hm & _).
  exists r, m. split; [reflexivity | split; assumption].
Defined.

Lemma slanted_within :
  Forall (fun c => within (squared_error_bound (1 # 2)) 4
                          (vertex0 (m_triangle c)) (vertex1 (m_triangle c))
                          (vertex2 (m_triangle c)))
         (candidate_triangles slanted_seed).
Proof. repeat constructor. Qed.

Lemma main_loop_iteration_bound_witness :
  exists final,
    main_loop plane_bounds half_plane (1 # 2) 341 slanted_seed = Some final
    /\ loop_condition (1 # 2) final = false.
Proof.
  exact (proj2 (main_loop_iteration_bound plane_bounds half_plane (1 # 2) 4 slanted_seed
                                          slanted_within)
               341%nat (Nat.le_refl _)).
Defined.

Lemma estimate_within_seeded_bounds_witness :
  exists r final,
    bounded_error_Hausdorff_impl plane_bounds half_plane (1 # 2) 100 slanted_seed = Some r
    /\ main_loop plane_bounds half_plane (1 # 2) 100 slanted_seed = Some final
    /\ fst (global_bounds slanted_seed) <= fst (global_bounds final)
    /\ fst (global_bounds final) <= r
    /\ r <= snd (global_bounds final)
    /\ snd (global_bounds final) <= snd (global_bounds slanted_seed).
Proof.
  destruct (bounded_error_Hausdorff_impl plane_bounds half_plane (1 # 2) 100 slanted_seed)
    as [r|] eqn:E; [|vm_compute in E; discriminate].
  destruct (estimate_within_seeded_bounds plane_bounds half_plane (1 # 2)
                                          plane_bounds_tighten 100 slanted_seed r
                                          slanted_seed_bracketed E) as [final H].
  exists r, final. split; [reflexivity | exact H].
Defined.

Lemma iteration_replaces_top_witness :
  length (candidate_triangles (iteration plane_bounds half_plane (1 # 2) slanted_seed))
  = (length (candidate_triangles slanted_seed) + 3)%nat.
Proof.
  destruct (iteration_replaces_top plane_bounds half_plane (1 # 2) slanted_seed
                                   ltac:(discriminate)) as [[H _]|H].
  - vm_compute in H. discriminate.
  - exact H.
Defined.

End MoreWitnesses.
